(** * Vanishing-piece tic-tac-toe: game engine and peer synchronisation

    A shallow embedding of [src/App.jsx]: the win detector [checkWin], the
    move engine ([cycleLabelFor], [removeOldestIfNeeded], [applyMove]), the
    session operations ([snapshotState], [hydrateFromState], [resetGame]) and
    the two message handlers of the host and of the guest.

    Modelling conventions.
    - JavaScript numbers that the program uses as board sizes, cell indices
      and labels are natural numbers.  Player ids 1 and 2 are the two
      constructors of [Player].
    - A board is a JavaScript array of cells; a cell is [null] or a piece.
      [null], [undefined] and array holes are all falsy and are all read the
      same way by the program, so they are one value, [None].
    - The component function is run again at every render, and each run binds
      fresh constants [n], [board], [turn], [queues], [nextLabel], [win].
      The functions declared in the component are closures over the constants
      of the render that created them.  They are defined in [Section Render],
      whose variable [e] is that render.  State setters act on the hooks (the
      store), which a handler receives and returns explicitly; a functional
      update [setX (prev => ...)] reads the store, a plain read of [x] reads
      the render.
    - All setter calls made by one handler are applied before the next render
      (batched updates); effects run after the render that changed one of
      their dependencies. *)

From Stdlib Require Import List Arith PeanoNat Bool Lia ZArith Permutation.
From Stdlib Require Import Strings.Ascii Strings.Byte.
Import ListNotations.

(** ** Data model *)

Inductive Player : Type := P1 | P2.

Definition player_eqb (a b : Player) : bool :=
  match a, b with
  | P1, P1 | P2, P2 => true
  | _, _ => false
  end.

(** [player === 1 ? 2 : 1] *)
Definition other (p : Player) : Player :=
  match p with P1 => P2 | P2 => P1 end.

Record Piece : Type := mkPiece { player : Player; label : nat }.

Abbreviation Cell := (option Piece).
Abbreviation Board := (list (option Piece)).

(** An object with the two keys [1] and [2], as [queues] and [nextLabel]. *)
Record PerPlayer (A : Type) : Type := mkPer { of1 : A; of2 : A }.
Arguments mkPer {A} _ _.
Arguments of1 {A} _.
Arguments of2 {A} _.

Definition pget {A} (o : PerPlayer A) (p : Player) : A :=
  match p with P1 => of1 o | P2 => of2 o end.

(** [{ ...o, [p]: v }] *)
Definition pset {A} (o : PerPlayer A) (p : Player) (v : A) : PerPlayer A :=
  match p with
  | P1 => mkPer v (of2 o)
  | P2 => mkPer (of1 o) v
  end.

Record WinResult : Type := mkWin { winner : Player; line : list nat }.

Record GameState : Type := mkState {
  n : nat;
  board : Board;
  turn : Player;
  queues : PerPlayer (list nat);
  nextLabel : PerPlayer nat;
  win : option WinResult
}.

(** ** Array access *)

(** [board[i]]: the piece at [i], or a falsy value when the cell holds
    [null] or [i] is past the end of the array. *)
Definition bget (b : Board) (i : nat) : Cell :=
  match nth_error b i with
  | Some c => c
  | None => None
  end.

(** In-range assignment [b[i] = v]. *)
Fixpoint replace (b : Board) (i : nat) (v : Cell) : Board :=
  match b, i with
  | [], _ => []
  | _ :: t, 0 => v :: t
  | c :: t, S i' => c :: replace t i' v
  end.

(** [b[i] = v].  Past the end of the array JavaScript grows the array: the
    cells between the old end and [i] become holes. *)
Definition bset (b : Board) (i : nat) (v : Cell) : Board :=
  if i <? length b then replace b i v
  else b ++ repeat None (i - length b) ++ [v].

(** ** Cell geometry *)

Definition cellAt (idx n : nat) : nat * nat := (idx / n, idx mod n).
Definition idxAt (r c n : nat) : nat := r * n + c.

(** ** Win detector *)

(** [[...Array(n)].map((_, j) => f j)] *)
Definition tabulate (n : nat) (f : nat -> nat) : list nat := map f (seq 0 n).

Definition rowLine (n i : nat) : list nat := tabulate n (fun j => idxAt i j n).
Definition colLine (n i : nat) : list nat := tabulate n (fun j => idxAt j i n).
Definition diagLine (n : nat) : list nat := tabulate n (fun j => idxAt j j n).
Definition antiLine (n : nat) : list nat :=
  tabulate n (fun j => idxAt j (n - 1 - j) n).

(** The first loop of [checkWin] and the two pushes after it. *)
Definition lines (n : nat) : list (list nat) :=
  let rowsCols :=
    fold_left (fun acc i => acc ++ [rowLine n i] ++ [colLine n i]) (seq 0 n) []
  in
  (rowsCols ++ [diagLine n]) ++ [antiLine n].

(** The body of the second loop: [Some w] when the line is a win for [w],
    [None] when the loop goes on to the next line. *)
Definition lineWinner (b : Board) (l : list nat) : option Player :=
  match l with
  | [] => None
  | i0 :: _ =>
      match bget b i0 with
      | None => None
      | Some first =>
          if forallb
               (fun i =>
                  match bget b i with
                  | Some pc => player_eqb (player pc) (player first)
                  | None => false
                  end) l
          then Some (player first)
          else None
      end
  end.

Fixpoint scanLines (b : Board) (ls : list (list nat)) : option WinResult :=
  match ls with
  | [] => None
  | l :: rest =>
      match lineWinner b l with
      | Some w => Some (mkWin w l)
      | None => scanLines b rest
      end
  end.

Definition checkWin (b : Board) (n : nat) : option WinResult :=
  scanLines b (lines n).

(** ** Hooks and setters *)

Definition setN (v : nat) (s : GameState) : GameState :=
  mkState v (board s) (turn s) (queues s) (nextLabel s) (win s).
Definition setBoard (v : Board) (s : GameState) : GameState :=
  mkState (n s) v (turn s) (queues s) (nextLabel s) (win s).
Definition setTurn (v : Player) (s : GameState) : GameState :=
  mkState (n s) (board s) v (queues s) (nextLabel s) (win s).
Definition setQueues (v : PerPlayer (list nat)) (s : GameState) : GameState :=
  mkState (n s) (board s) (turn s) v (nextLabel s) (win s).
Definition setNextLabel (v : PerPlayer nat) (s : GameState) : GameState :=
  mkState (n s) (board s) (turn s) (queues s) v (win s).
Definition setWin (v : option WinResult) (s : GameState) : GameState :=
  mkState (n s) (board s) (turn s) (queues s) (nextLabel s) v.

(** [Array(k).fill(null)] *)
Definition emptyBoard (k : nat) : Board := repeat None k.

(** The hooks as [resetGame] leaves them for board size [m]. *)
Definition emptyState (m : nat) : GameState :=
  mkState m (emptyBoard (m * m)) P1 (mkPer [] []) (mkPer 1 1) None.

(** The initial values given to [useState]. *)
Definition mountState : GameState :=
  mkState 3 (emptyBoard 9) P1 (mkPer [] []) (mkPer 1 1) None.

(** ** Peer channel *)

(** The index carried by an attempt: a number, or a value for which
    [typeof idx === "number"] is false. *)
Inductive JsIndex : Type :=
| IdxNum (i : nat)
| IdxNotNumber.

(** Messages, by their [type] field.  The payload of a state message may be
    [null] or missing. *)
Inductive Message : Type :=
| MsgAttempt (index : JsIndex)
| MsgState (payload : option GameState)
| MsgSyncRequest
| MsgChat
| MsgOther.

(** The data connection, as far as the program looks at it. *)
Record Conn : Type := mkConn { open : bool }.

Inductive Mode : Type := Local | Online.
Inductive Role : Type := Host | Guest.

Definition mode_online (m : Mode) : bool :=
  match m with Online => true | Local => false end.
Definition role_is (r : option Role) (x : Role) : bool :=
  match r, x with
  | Some Host, Host | Some Guest, Guest => true
  | _, _ => false
  end.

(** ** The closures of one render *)

Section Render.

(** The constants bound by the render that created the closures. *)
Variable e : GameState.
Variable mode : Mode.
Variable role : option Role.
Variable iAm : Player.

Definition maxPieces : nat := n e.

(** Returns the label and the store after [setNextLabel]. *)
Definition cycleLabelFor (p : Player) (store : GameState) : nat * GameState :=
  let label := pget (nextLabel e) p in
  let next := if n e <=? label then 1 else label + 1 in
  (label, setNextLabel (pset (nextLabel store) p next) store).

(** Returns [qArr] and the array [b] after the assignment made to it.
    [shift] on an empty array gives [undefined], and [b[undefined] = null]
    touches no cell. *)
Definition removeOldestIfNeeded (forPlayer : Player) (b : Board)
    (q : PerPlayer (list nat)) : list nat * Board :=
  let qArr := pget q forPlayer in
  if maxPieces <=? length qArr then
    match qArr with
    | idx :: rest => (rest, bset b idx None)
    | [] => ([], b)
    end
  else (qArr, b).

Definition applyMove (index : nat) (p : Player) (store : GameState)
    : GameState :=
  let b := board store in
  let queuesCopy := mkPer (of1 (queues e)) (of2 (queues e)) in
  let '(qArr, b) := removeOldestIfNeeded p b (queues e) in
  let '(label, store) := cycleLabelFor p store in
  let b := bset b index (Some (mkPiece p label)) in
  let newQ := pset queuesCopy p (qArr ++ [index]) in
  let store := setQueues newQ store in
  let res := checkWin b (n e) in
  let store := setWin res store in
  let store :=
    match res with
    | None => setTurn (other p) store
    | Some _ => store
    end in
  setBoard b store.

Definition snapshotState : GameState :=
  mkState (n e) (board e) (turn e) (queues e) (nextLabel e) (win e).

Definition hydrateFromState (s : option GameState) (store : GameState)
    : GameState :=
  match s with
  | None => store
  | Some s =>
      let store := setN (n s) store in
      let store := setBoard (board s) store in
      let store := setTurn (turn s) store in
      let store := setQueues (queues s) store in
      let store := setNextLabel (nextLabel s) store in
      setWin (win s) store
  end.

(** The list of [send] calls made on the connection. *)
Definition broadcastState (connRef : option Conn) : list Message :=
  match connRef with
  | None => []
  | Some conn =>
      if open conn then [MsgState (Some snapshotState)] else []
  end.

Definition resetGame (connRef : option Conn) (store : GameState)
    : GameState * list Message :=
  let store := setBoard (emptyBoard (n e * n e)) store in
  let store := setQueues (mkPer [] []) store in
  let store := setNextLabel (mkPer 1 1) store in
  let store := setTurn P1 store in
  let store := setWin None store in
  (store,
   if mode_online mode && role_is role Host
   then broadcastState connRef else []).

(** The click handler, from the cell index that the click maps to. *)
Definition onCanvasClick (connRef : option Conn) (index : nat)
    (store : GameState) : GameState * list Message :=
  match win e with
  | Some _ => (store, [])
  | None =>
      if mode_online mode && negb (player_eqb (turn e) iAm) then (store, [])
      else
        match bget (board e) index with
        | Some _ => (store, [])
        | None =>
            if mode_online mode && role_is role Guest then
              (store,
               match connRef with
               | Some _ => [MsgAttempt (IdxNum index)]
               | None => []
               end)
            else
              (applyMove index (turn e) store,
               if mode_online mode && role_is role Host
               then broadcastState connRef else [])
        end
  end.

(** The host's [data] handler.  The broadcast that follows an accepted
    attempt is the one scheduled with [setTimeout]. *)
Definition hostOnData (connRef : option Conn) (data : Message)
    (store : GameState) : GameState * list Message :=
  match data with
  | MsgAttempt idx =>
      if negb (player_eqb (turn e) P2)
         || match win e with Some _ => true | None => false end
      then (store, [])
      else
        match idx with
        | IdxNum i =>
            match bget (board e) i with
            | None => (applyMove i P2 store, broadcastState connRef)
            | Some _ => (store, [])
            end
        | IdxNotNumber => (store, [])
        end
  | MsgSyncRequest => (store, broadcastState connRef)
  | _ => (store, [])
  end.

(** The guest's [data] handler. *)
Definition guestOnData (data : Message) (store : GameState) : GameState :=
  match data with
  | MsgState payload => hydrateFromState payload store
  | _ => store
  end.

End Render.

(** ** Renders and effects *)

(** The effect with dependency [[n]]. *)
Definition resizeEffect (store : GameState) : GameState :=
  let store :=
    if n store =? 3 then setBoard (emptyBoard 9) store
    else setBoard (emptyBoard 16) store in
  let store := setQueues (mkPer [] []) store in
  let store := setNextLabel (mkPer 1 1) store in
  let store := setTurn P1 store in
  setWin None store.

(** The hooks once the renders that follow a handler have settled: the
    handler ran in render [e] and left the hooks at [store]; the effect runs
    when [n] differs from the [n] of [e]. *)
Definition rerender (e store : GameState) : GameState :=
  if n store =? n e then store else resizeEffect store.

(** ** Local play *)

Inductive Event : Type :=
| Click (index : nat)
| ResetClick
| SizeClick (m : nat).

(** One user action on a session whose current render is [s]. *)
Definition step (mode : Mode) (role : option Role) (iAm : Player)
    (connRef : option Conn) (s : GameState) (ev : Event) : GameState :=
  match ev with
  | Click i => rerender s (fst (onCanvasClick s mode role iAm connRef i s))
  | ResetClick => rerender s (fst (resetGame s mode role connRef s))
  | SizeClick m => rerender s (setN m s)
  end.

(** ** Runs of the move engine *)

(** The preconditions of a move: no winner yet, index on the board, cell
    empty. *)
Definition legalb (s : GameState) (index : nat) : bool :=
  match win s with
  | Some _ => false
  | None =>
      (index <? n s * n s)
      && match bget (board s) index with Some _ => false | None => true end
  end.

Definition Move : Type := (nat * Player)%type.

(** A move applied by closures of the current render. *)
Definition move (s : GameState) (m : Move) : GameState :=
  applyMove s (fst m) (snd m) s.

Fixpoint play (s : GameState) (ms : list Move) : GameState :=
  match ms with
  | [] => s
  | m :: rest => play (move s m) rest
  end.

Fixpoint legalRun (s : GameState) (ms : list Move) : bool :=
  match ms with
  | [] => true
  | m :: rest => legalb s (fst m) && legalRun (move s m) rest
  end.

(** The pieces put on the board by a run, in order, each read off the board
    right after its move. *)
Fixpoint placed (s : GameState) (ms : list Move) : list Piece :=
  match ms with
  | [] => []
  | m :: rest =>
      match bget (board (move s m)) (fst m) with
      | Some pc => pc :: placed (move s m) rest
      | None => placed (move s m) rest
      end
  end.

Definition placedBy (p : Player) (s : GameState) (ms : list Move)
    : list Piece :=
  filter (fun pc => player_eqb (player pc) p) (placed s ms).

(** ** Sample states *)

(** Host side: player 1 has placed one piece at cell 0 of a 3x3 board. *)
Definition afterFirstMove : GameState := move (emptyState 3) (0, P1).

(** A 4x4 snapshot in which player 1 has placed one piece at cell 5. *)
Definition snapshot4 : GameState := move (emptyState 4) (5, P1).

(** A run on the 3x3 board that fills both queues and evicts twice. *)
Definition sampleRun : list Move :=
  [(0, P1); (1, P2); (3, P1); (4, P2); (8, P1); (6, P2); (2, P1); (5, P2)].

(** The 3x3 board after six moves of [sampleRun]: both queues are full. *)
Definition fullQueueState : GameState :=
  play (emptyState 3) (firstn 6 sampleRun).

(** A 3x3 board on which player 2 owns the main diagonal. *)
Definition diagBoard : Board :=
  [Some (mkPiece P2 1); None; Some (mkPiece P1 1);
   None; Some (mkPiece P2 2); None;
   Some (mkPiece P1 2); None; Some (mkPiece P2 3)].

(** ** Specification vocabulary *)

(** Every cell of [l] holds a piece of player [p]; labels play no part. *)
Definition ownedBy (b : Board) (p : Player) (l : list nat) : Prop :=
  forall i, In i l -> exists pc, bget b i = Some pc /\ player pc = p.

(** [l] lists [n] cells, and they are the cells of the [n] x [n] grid whose
    row [r] and column [c] satisfy [P r c]. *)
Definition isLine (n : nat) (P : nat -> nat -> Prop) (l : list nat) : Prop :=
  length l = n /\
  forall k, In k l <->
            k < n * n /\ P (fst (cellAt k n)) (snd (cellAt k n)).

(** Queues and board agree: no queue repeats an index, and an index is in
    the queue of [p] exactly when its cell holds a piece of [p]. *)
Definition consistent (s : GameState) : Prop :=
  (forall p, NoDup (pget (queues s) p))
  /\ (forall i p,
        In i (pget (queues s) p) <->
        exists pc, bget (board s) i = Some pc /\ player pc = p).

(** ** Pieces left to place *)

(** [Math.max(0, maxPieces - queues[p].length)], the count shown beside each
    player. *)
Definition remainFor (e : GameState) (p : Player) : Z :=
  Z.max 0 (Z.of_nat (maxPieces e) - Z.of_nat (length (pget (queues e) p))).

(** ** Room identifier *)

(** Strings are lists of characters. *)
Abbreviation str := (list ascii).

Definition hexDigit (d : nat) : ascii :=
  nth d ["0"; "1"; "2"; "3"; "4"; "5"; "6"; "7";
         "8"; "9"; "a"; "b"; "c"; "d"; "e"; "f"]%char "0"%char.

(** [k.toString(16)], least significant digit first in the recursion. *)
Fixpoint toString16_from (fuel k : nat) (acc : str) : str :=
  match fuel with
  | 0 => acc
  | S fuel' =>
      let acc' := hexDigit (k mod 16) :: acc in
      if k / 16 =? 0 then acc' else toString16_from fuel' (k / 16) acc'
  end.

Definition toString16 (k : nat) : str := toString16_from (S k) k [].

(** [s.padStart(width, fill)] for a one-character [fill]. *)
Definition padStart (width : nat) (fill : ascii) (s : str) : str :=
  repeat fill (width - length s) ++ s.

(** [s.slice(0, k)] *)
Definition slice0 (k : nat) (s : str) : str := firstn k s.

Section RoomId.

(** The text encoder, the SHA-256 digest and [String.prototype.trim] belong
    to the platform. *)
Variable encode : str -> list byte.
Variable sha256 : list byte -> list byte.
Variable trim : str -> str.

Definition hexOfBytes (bytes : list byte) : str :=
  concat (map (fun b => padStart 2 "0"%char (toString16 (Byte.to_nat b))) bytes).

Definition digestOf (playerName password : str) : list byte :=
  sha256 (encode (playerName ++ [":"; ":"]%char ++ password)).

Definition hashRoom (playerName password : str) : str :=
  hexOfBytes (digestOf playerName password).

Definition prepareRoomId (name pass : str) : str :=
  ["r"; "o"; "o"; "m"; "-"]%char
  ++ slice0 12 (hashRoom (trim name) (trim pass))
  ++ ["-"; "h"; "o"; "s"; "t"]%char.

End RoomId.

(** ** More specification vocabulary *)

(** The last [k] elements of [l]. *)
Definition lastN {A} (k : nat) (l : list A) : list A :=
  skipn (length l - k) l.

(** The indices that player [p] played in a run, in order. *)
Definition indicesBy (p : Player) (ms : list Move) : list nat :=
  map fst (filter (fun m => player_eqb (snd m) p) ms).

(** The cells of the array that hold a piece of [p]. *)
Definition ownedCells (b : Board) (p : Player) : list nat :=
  filter
    (fun i =>
       match bget b i with
       | Some pc => player_eqb (player pc) p
       | None => false
       end)
    (seq 0 (length b)).

(** The same pieces with other labels. *)
Definition relabel (f : Piece -> nat) (b : Board) : Board :=
  map (option_map (fun pc => mkPiece (player pc) (f pc))) b.

(** Counters and labels lie between 1 and the board size. *)
Definition labelsInRange (s : GameState) : Prop :=
  (forall p, 1 <= pget (nextLabel s) p <= n s)
  /\ (forall i pc, bget (board s) i = Some pc -> 1 <= label pc <= n s).

(** The sixteen characters that [toString(16)] produces. *)
Definition hexChars : str :=
  ["0"; "1"; "2"; "3"; "4"; "5"; "6"; "7";
   "8"; "9"; "a"; "b"; "c"; "d"; "e"; "f"]%char.

(** The labels of the pieces in the queue of [p] are consecutive in the
    cycle and end just before the next label, [c] being the number of pieces
    that [p] has placed. *)
Definition labelsFollowQueue (s : GameState) (p : Player) (c : nat) : Prop :=
  length (pget (queues s) p) <= c
  /\ pget (nextLabel s) p = c mod n s + 1
  /\ forall j i,
       nth_error (pget (queues s) p) j = Some i ->
       exists pc,
         bget (board s) i = Some pc
         /\ label pc = (c - length (pget (queues s) p) + j) mod n s + 1.

(** A digest function for examples: the input padded to 32 bytes. *)
Definition sampleDigest (x : list byte) : list byte :=
  firstn 32 (x ++ repeat x00 32).

(** ** Proof automation *)

(** Opens a call of [applyMove] on the outcome of the eviction step and of
    win detection. *)
Ltac open_applyMove :=
  unfold applyMove;
  destruct (removeOldestIfNeeded _ _ _ _) as [qArr b];
  simpl; try (destruct (checkWin _ _); simpl); try reflexivity.

(** * Properties *)

(** ** Arrays *)

Lemma bget_nil : forall i, bget [] i = None.
Proof. intros [|i]; reflexivity. Qed.

Lemma bget_replace : forall b i j v,
  i < length b ->
  bget (replace b i v) j = if j =? i then v else bget b j.
Proof.
  induction b as [|c t IH]; intros i j v Hi; simpl in Hi; [lia|].
  destruct i as [|i]; destruct j as [|j]; simpl; try reflexivity.
  unfold bget in *. simpl. apply IH. lia.
Qed.

Lemma bget_past_end : forall b i, length b <= i -> bget b i = None.
Proof.
  intros b i H. unfold bget.
  rewrite (proj2 (nth_error_None b i)) by assumption. reflexivity.
Qed.

Lemma bget_grow : forall b k j v,
  bget (b ++ repeat None k ++ [v]) j =
  if j =? length b + k then v else bget b j.
Proof.
  intros b k j v. unfold bget.
  destruct (Nat.ltb_spec j (length b)) as [Hlt|Hge].
  - rewrite nth_error_app1 by assumption.
    destruct (Nat.eqb_spec j (length b + k)); [lia|reflexivity].
  - rewrite nth_error_app2 by assumption.
    rewrite (proj2 (nth_error_None b j)) by assumption.
    destruct (Nat.ltb_spec (j - length b) k) as [Hk|Hk].
    + rewrite nth_error_app1 by (rewrite repeat_length; assumption).
      rewrite nth_error_repeat by assumption.
      destruct (Nat.eqb_spec j (length b + k)); [lia|reflexivity].
    + rewrite nth_error_app2 by (rewrite repeat_length; assumption).
      rewrite repeat_length.
      destruct (Nat.eqb_spec j (length b + k)) as [->|Hne].
      * replace (length b + k - length b - k) with 0 by lia. reflexivity.
      * destruct (j - length b - k) as [|d] eqn:Ed; [lia|].
        simpl. destruct d; reflexivity.
Qed.

(** Reading after [b[i] = v]: the written cell holds [v], every other cell
    reads as before, also when the write grew the array. *)
Lemma bget_bset : forall b i j v,
  bget (bset b i v) j = if j =? i then v else bget b j.
Proof.
  intros b i j v. unfold bset.
  destruct (Nat.ltb_spec i (length b)) as [Hlt|Hge].
  - apply bget_replace. assumption.
  - rewrite bget_grow.
    replace (length b + (i - length b)) with i by lia. reflexivity.
Qed.

Lemma bget_bset_same : forall b i v, bget (bset b i v) i = v.
Proof. intros. rewrite bget_bset, Nat.eqb_refl. reflexivity. Qed.

Lemma bget_bset_other : forall b i j v,
  j <> i -> bget (bset b i v) j = bget b j.
Proof.
  intros b i j v H. rewrite bget_bset.
  destruct (Nat.eqb_spec j i); [contradiction|reflexivity].
Qed.

Lemma replace_length : forall b i v, length (replace b i v) = length b.
Proof.
  induction b as [|c t IH]; intros [|i] v; simpl; auto.
Qed.

Lemma bset_length_in_range : forall b i v,
  i < length b -> length (bset b i v) = length b.
Proof.
  intros b i v H. unfold bset.
  destruct (Nat.ltb_spec i (length b)); [apply replace_length|lia].
Qed.

Lemma bget_emptyBoard : forall k i, bget (emptyBoard k) i = None.
Proof.
  intros k i. unfold bget, emptyBoard.
  destruct (nth_error (repeat None k) i) as [c|] eqn:E; [|reflexivity].
  apply nth_error_In, repeat_spec in E. assumption.
Qed.

Lemma player_eqb_eq : forall a b, player_eqb a b = true <-> a = b.
Proof. intros [] []; simpl; split; congruence. Qed.

Lemma player_eqb_refl : forall a, player_eqb a a = true.
Proof. intros []; reflexivity. Qed.

Lemma pget_pset_same : forall A (o : PerPlayer A) p v, pget (pset o p v) p = v.
Proof. intros A o [] v; reflexivity. Qed.

Lemma pget_pset_other : forall A (o : PerPlayer A) p v,
  pget (pset o p v) (other p) = pget o (other p).
Proof. intros A o [] v; reflexivity. Qed.

(** ** Cell geometry *)

Lemma cell_of_idx : forall n r c,
  c < n -> cellAt (idxAt r c n) n = (r, c).
Proof.
  intros n r c Hc. unfold cellAt, idxAt. f_equal.
  - symmetry. apply Nat.div_unique with (r := c); lia.
  - symmetry. apply Nat.mod_unique with (q := r); lia.
Qed.

Lemma idx_of_cell : forall n k,
  idxAt (fst (cellAt k n)) (snd (cellAt k n)) n = k.
Proof.
  intros n k. unfold cellAt, idxAt. simpl.
  pose proof (Nat.div_mod_eq k n). lia.
Qed.

Lemma cell_in_grid : forall n k,
  k < n * n -> fst (cellAt k n) < n /\ snd (cellAt k n) < n.
Proof.
  intros n k Hk. unfold cellAt. simpl.
  assert (n <> 0) by (intros ->; simpl in Hk; lia).
  split.
  - apply Nat.Div0.div_lt_upper_bound. assumption.
  - apply Nat.mod_upper_bound. assumption.
Qed.

Lemma in_tabulate : forall n f k,
  In k (tabulate n f) <-> exists j, j < n /\ f j = k.
Proof.
  intros n f k. unfold tabulate. rewrite in_map_iff. split.
  - intros (j & Hj & Hin). apply in_seq in Hin. exists j. split; [lia|assumption].
  - intros (j & Hj & Hf). exists j. split; [assumption|]. apply in_seq. lia.
Qed.

Lemma tabulate_length : forall n f, length (tabulate n f) = n.
Proof. intros. unfold tabulate. rewrite length_map, length_seq. reflexivity. Qed.

Lemma rowLine_isLine : forall n i,
  i < n -> isLine n (fun r _ => r = i) (rowLine n i).
Proof.
  intros n i Hi. split; [apply tabulate_length|].
  intros k. unfold rowLine. rewrite in_tabulate. split.
  - intros (j & Hj & <-). rewrite cell_of_idx by assumption. simpl.
    split; [unfold idxAt; nia|reflexivity].
  - intros (Hk & Hr). destruct (cell_in_grid n k Hk) as [_ Hc].
    exists (snd (cellAt k n)). split; [assumption|].
    rewrite <- Hr. apply idx_of_cell.
Qed.

Lemma colLine_isLine : forall n i,
  i < n -> isLine n (fun _ c => c = i) (colLine n i).
Proof.
  intros n i Hi. split; [apply tabulate_length|].
  intros k. unfold colLine. rewrite in_tabulate. split.
  - intros (j & Hj & <-). rewrite cell_of_idx by assumption. simpl.
    split; [unfold idxAt; nia|reflexivity].
  - intros (Hk & Hc). destruct (cell_in_grid n k Hk) as [Hr _].
    exists (fst (cellAt k n)). split; [assumption|].
    rewrite <- Hc. apply idx_of_cell.
Qed.

Lemma diagLine_isLine : forall n, isLine n (fun r c => r = c) (diagLine n).
Proof.
  intros n. split; [apply tabulate_length|].
  intros k. unfold diagLine. rewrite in_tabulate. split.
  - intros (j & Hj & <-). rewrite cell_of_idx by assumption. simpl.
    split; [unfold idxAt; nia|reflexivity].
  - intros (Hk & Hd). destruct (cell_in_grid n k Hk) as [Hr _].
    exists (fst (cellAt k n)). split; [assumption|].
    rewrite Hd at 2. apply idx_of_cell.
Qed.

Lemma antiLine_isLine : forall n,
  isLine n (fun r c => r + c = n - 1) (antiLine n).
Proof.
  intros n. split; [apply tabulate_length|].
  intros k. unfold antiLine. rewrite in_tabulate. split.
  - intros (j & Hj & <-). rewrite cell_of_idx by lia. simpl.
    split; [unfold idxAt; nia|lia].
  - intros (Hk & Ha). destruct (cell_in_grid n k Hk) as [Hr Hc].
    exists (fst (cellAt k n)). split; [assumption|].
    replace (n - 1 - fst (cellAt k n)) with (snd (cellAt k n)) by lia.
    apply idx_of_cell.
Qed.

(** ** The enumeration of lines *)

Lemma fold_push_pairs : forall (f g : nat -> list nat) l acc,
  fold_left (fun acc i => acc ++ [f i] ++ [g i]) l acc =
  acc ++ flat_map (fun i => [f i; g i]) l.
Proof.
  intros f g l. induction l as [|a l IH]; intros acc; simpl.
  - rewrite app_nil_r. reflexivity.
  - rewrite IH, <- app_assoc. reflexivity.
Qed.

Lemma lines_unfold : forall n,
  lines n =
  flat_map (fun i => [rowLine n i; colLine n i]) (seq 0 n)
  ++ [diagLine n; antiLine n].
Proof.
  intros n. unfold lines. rewrite fold_push_pairs. simpl.
  rewrite <- app_assoc. reflexivity.
Qed.

Lemma pairs_length : forall (f g : nat -> list nat) k a,
  length (flat_map (fun i => [f i; g i]) (seq a k)) = 2 * k.
Proof.
  intros f g k. induction k as [|k IH]; intros a; simpl; [reflexivity|].
  rewrite IH. lia.
Qed.

Lemma pairs_nth : forall (f g : nat -> list nat) k a i,
  i < k ->
  nth_error (flat_map (fun i => [f i; g i]) (seq a k)) (2 * i) = Some (f (a + i))
  /\ nth_error (flat_map (fun i => [f i; g i]) (seq a k)) (2 * i + 1)
     = Some (g (a + i)).
Proof.
  intros f g k. induction k as [|k IH]; intros a i Hi; [lia|].
  destruct i as [|i].
  - simpl. rewrite Nat.add_0_r. split; reflexivity.
  - replace (2 * S i) with (S (S (2 * i))) by lia.
    replace (a + S i) with (S a + i) by lia.
    simpl seq. simpl flat_map. simpl nth_error.
    apply IH. lia.
Qed.

Lemma lines_length : forall n, length (lines n) = 2 * n + 2.
Proof.
  intros n. rewrite lines_unfold, length_app, pairs_length. simpl. lia.
Qed.

Lemma lines_row_col : forall n i,
  i < n ->
  nth_error (lines n) (2 * i) = Some (rowLine n i)
  /\ nth_error (lines n) (2 * i + 1) = Some (colLine n i).
Proof.
  intros n i Hi. rewrite lines_unfold.
  destruct (pairs_nth (rowLine n) (colLine n) n 0 i Hi) as [Hr Hc].
  split; rewrite nth_error_app1 by (rewrite pairs_length; lia); assumption.
Qed.

Lemma lines_diagonals : forall n,
  nth_error (lines n) (2 * n) = Some (diagLine n)
  /\ nth_error (lines n) (2 * n + 1) = Some (antiLine n).
Proof.
  intros n. rewrite lines_unfold.
  split; rewrite nth_error_app2 by (rewrite pairs_length; lia);
    rewrite pairs_length.
  - replace (2 * n - 2 * n) with 0 by lia. reflexivity.
  - replace (2 * n + 1 - 2 * n) with 1 by lia. reflexivity.
Qed.

Lemma lines_have_n_cells : forall n l, In l (lines n) -> length l = n.
Proof.
  intros n l Hin. rewrite lines_unfold in Hin.
  apply in_app_or in Hin. destruct Hin as [Hin|Hin].
  - apply in_flat_map in Hin. destruct Hin as (i & _ & [<-|[<-|[]]]);
      apply tabulate_length.
  - destruct Hin as [<-|[<-|[]]]; apply tabulate_length.
Qed.

(** ** The scan for a winning line *)

Lemma lineWinner_owned : forall b l w,
  lineWinner b l = Some w <-> l <> [] /\ ownedBy b w l.
Proof.
  intros b l w. unfold lineWinner. destruct l as [|i0 t].
  - split; [discriminate|intros [H _]; contradiction].
  - destruct (bget b i0) as [first|] eqn:E0.
    + destruct (forallb _ (i0 :: t)) eqn:Hall.
      * rewrite forallb_forall in Hall. split.
        -- intros [= <-]. split; [discriminate|].
           intros i Hi. specialize (Hall i Hi).
           destruct (bget b i) as [pc|]; [|discriminate].
           exists pc. split; [reflexivity|]. apply player_eqb_eq. assumption.
        -- intros (_ & Hown). destruct (Hown i0 (or_introl eq_refl))
             as (pc & Hpc & Hw). rewrite E0 in Hpc. congruence.
      * split; [discriminate|]. intros (_ & Hown). exfalso.
        apply Bool.not_true_iff_false in Hall. apply Hall.
        apply forallb_forall. intros i Hi.
        destruct (Hown i Hi) as (pc & -> & Hw).
        destruct (Hown i0 (or_introl eq_refl)) as (pc0 & Hpc0 & Hw0).
        rewrite E0 in Hpc0. injection Hpc0 as <-.
        apply player_eqb_eq. congruence.
    + split; [discriminate|]. intros (_ & Hown).
      destruct (Hown i0 (or_introl eq_refl)) as (pc & Hpc & _). congruence.
Qed.

Lemma lineWinner_none : forall b l,
  l <> [] -> (lineWinner b l = None <-> forall p, ~ ownedBy b p l).
Proof.
  intros b l Hne. split.
  - intros HN p Hown.
    assert (lineWinner b l = Some p) by (apply lineWinner_owned; auto).
    congruence.
  - intros H. destruct (lineWinner b l) as [w|] eqn:E; [|reflexivity].
    apply lineWinner_owned in E. destruct E as [_ E]. elim (H w E).
Qed.

(** [scanLines] returns the first line of the list on which the loop body
    succeeds. *)
Lemma scanLines_first : forall b ls w l,
  scanLines b ls = Some (mkWin w l) <->
  exists k, nth_error ls k = Some l
            /\ lineWinner b l = Some w
            /\ forall j l', j < k -> nth_error ls j = Some l' ->
                            lineWinner b l' = None.
Proof.
  intros b ls w l. induction ls as [|l0 rest IH]; simpl.
  - split; [discriminate|]. intros ([|k] & H & _); discriminate.
  - destruct (lineWinner b l0) as [w0|] eqn:E0.
    + split.
      * intros [= <- <-]. exists 0. repeat split; auto. intros j l' Hj. lia.
      * intros (k & Hk & Hw & Hfirst). destruct k as [|k].
        -- simpl in Hk. injection Hk as <-. congruence.
        -- specialize (Hfirst 0 l0 (Nat.lt_0_succ k) eq_refl). congruence.
    + rewrite IH. split.
      * intros (k & Hk & Hw & Hfirst). exists (S k). repeat split; auto.
        intros [|j] l' Hj Hl'; simpl in Hl'.
        -- congruence.
        -- apply (Hfirst j); [lia|assumption].
      * intros (k & Hk & Hw & Hfirst). destruct k as [|k].
        -- simpl in Hk. injection Hk as <-. congruence.
        -- exists k. repeat split; auto.
           intros j l' Hj Hl'. apply (Hfirst (S j)); [lia|assumption].
Qed.

Lemma scanLines_none : forall b ls,
  scanLines b ls = None <-> forall l, In l ls -> lineWinner b l = None.
Proof.
  intros b ls. induction ls as [|l0 rest IH]; simpl.
  - split; [intros _ l []|reflexivity].
  - destruct (lineWinner b l0) as [w0|] eqn:E0.
    + split; [discriminate|]. intros H.
      specialize (H l0 (or_introl eq_refl)). congruence.
    + rewrite IH. split.
      * intros H l [<-|Hin]; auto.
      * intros H l Hin. apply H. right. assumption.
Qed.

Lemma lines_nonempty : forall n l, 1 <= n -> In l (lines n) -> l <> [].
Proof.
  intros n l Hn Hin Hnil. apply lines_have_n_cells in Hin.
  subst l. simpl in Hin. lia.
Qed.

(** C3.  For a board size [n >= 1] and any board, [checkWin] goes through
    exactly [2n + 2] candidate lines of [n] cells each: at position [2i] the
    row [i] and at position [2i + 1] the column [i], for [i = 0..n-1], then
    the main diagonal, then the anti-diagonal.  It returns winner [w] and
    line [l] exactly when [l] is the first line in that order whose cells are
    all occupied by pieces of the one owner [w] (labels are not looked at),
    and it returns nothing exactly when no line is fully occupied by a single
    owner. *)
Theorem checkWin_first_complete_line : forall (b : Board) (n : nat),
  1 <= n ->
  length (lines n) = 2 * n + 2
  /\ (forall l, In l (lines n) -> length l = n)
  /\ (forall i, i < n ->
        exists row col,
          nth_error (lines n) (2 * i) = Some row
          /\ isLine n (fun r _ => r = i) row
          /\ nth_error (lines n) (2 * i + 1) = Some col
          /\ isLine n (fun _ c => c = i) col)
  /\ (exists diag anti,
        nth_error (lines n) (2 * n) = Some diag
        /\ isLine n (fun r c => r = c) diag
        /\ nth_error (lines n) (2 * n + 1) = Some anti
        /\ isLine n (fun r c => r + c = n - 1) anti)
  /\ (forall w l,
        checkWin b n = Some (mkWin w l) <->
        exists k, nth_error (lines n) k = Some l
                  /\ ownedBy b w l
                  /\ forall j l', j < k -> nth_error (lines n) j = Some l' ->
                                  forall p, ~ ownedBy b p l')
  /\ (checkWin b n = None <->
      forall l, In l (lines n) -> forall p, ~ ownedBy b p l).
Proof.
  intros b n Hn. split; [apply lines_length|].
  split; [apply lines_have_n_cells|].
  split.
  { intros i Hi. destruct (lines_row_col n i Hi) as [Hr Hc].
    exists (rowLine n i), (colLine n i).
    split; [exact Hr|]. split; [apply rowLine_isLine; assumption|].
    split; [exact Hc|]. apply colLine_isLine; assumption. }
  split.
  { destruct (lines_diagonals n) as [Hd Ha].
    exists (diagLine n), (antiLine n).
    split; [exact Hd|]. split; [apply diagLine_isLine|].
    split; [exact Ha|]. apply antiLine_isLine. }
  split.
  - intros w l. unfold checkWin. rewrite scanLines_first. split.
    + intros (k & Hk & Hw & Hfirst). exists k.
      apply lineWinner_owned in Hw. destruct Hw as [_ Hw].
      repeat split; auto. intros j l' Hj Hl'.
      apply lineWinner_none; [|eauto].
      apply (lines_nonempty n); [assumption|]. eapply nth_error_In; eauto.
    + intros (k & Hk & Hw & Hfirst). exists k. repeat split; auto.
      * apply lineWinner_owned. split; [|assumption].
        apply (lines_nonempty n); [assumption|]. eapply nth_error_In; eauto.
      * intros j l' Hj Hl'. apply lineWinner_none; [|eauto].
        apply (lines_nonempty n); [assumption|]. eapply nth_error_In; eauto.
  - unfold checkWin. rewrite scanLines_none. split.
    + intros H l Hin. apply lineWinner_none; auto.
      apply (lines_nonempty n); assumption.
    + intros H l Hin. apply lineWinner_none; auto.
      apply (lines_nonempty n); assumption.
Qed.

(** A 3x3 board with player 2 on the main diagonal: the diagonal is the
    first complete line. *)
Lemma checkWin_first_complete_line_witness :
  1 <= 3
  /\ exists k, nth_error (lines 3) k = Some [0; 4; 8]
               /\ ownedBy diagBoard P2 [0; 4; 8]
               /\ forall j l', j < k -> nth_error (lines 3) j = Some l' ->
                               forall p, ~ ownedBy diagBoard p l'.
Proof.
  split; [lia|].
  destruct (checkWin_first_complete_line diagBoard 3) as (_ & _ & _ & _ & H & _);
    [lia|].
  apply H. reflexivity.
Defined.

(** ** The move engine, field by field *)

Lemma applyMove_board : forall e index p store,
  board (applyMove e index p store) =
  bset (snd (removeOldestIfNeeded e p (board store) (queues e))) index
       (Some (mkPiece p (pget (nextLabel e) p))).
Proof. intros. open_applyMove. Qed.

Lemma applyMove_queues : forall e index p store,
  queues (applyMove e index p store) =
  pset (queues e) p
       (fst (removeOldestIfNeeded e p (board store) (queues e)) ++ [index]).
Proof. intros. open_applyMove; destruct (queues e); reflexivity. Qed.

Lemma applyMove_nextLabel : forall e index p store,
  nextLabel (applyMove e index p store) =
  pset (nextLabel store) p
       (if n e <=? pget (nextLabel e) p then 1 else pget (nextLabel e) p + 1).
Proof. intros. open_applyMove. Qed.

Lemma applyMove_n : forall e index p store,
  n (applyMove e index p store) = n store.
Proof. intros. open_applyMove. Qed.

Lemma applyMove_win : forall e index p store,
  win (applyMove e index p store) =
  checkWin (board (applyMove e index p store)) (n e).
Proof. intros. rewrite applyMove_board. open_applyMove. Qed.

Lemma applyMove_turn : forall e index p store,
  turn (applyMove e index p store) =
  match win (applyMove e index p store) with
  | None => other p
  | Some _ => turn store
  end.
Proof. intros. open_applyMove. Qed.

Lemma legalb_true : forall s index,
  legalb s index = true <->
  win s = None /\ index < n s * n s /\ bget (board s) index = None.
Proof.
  intros s index. unfold legalb. destruct (win s) as [w|].
  - split; [discriminate|]. intros (H & _). discriminate.
  - rewrite Bool.andb_true_iff, Nat.ltb_lt.
    destruct (bget (board s) index) as [pc|].
    + split; [intros (_ & H); discriminate|intros (_ & _ & H); discriminate].
    + tauto.
Qed.

Lemma removeOldest_full : forall e p b q,
  1 <= n e -> n e <= length (pget q p) ->
  exists idx rest,
    pget q p = idx :: rest
    /\ removeOldestIfNeeded e p b q = (rest, bset b idx None).
Proof.
  intros e p b q Hn Hfull. unfold removeOldestIfNeeded, maxPieces.
  destruct (Nat.leb_spec (n e) (length (pget q p))) as [_|Hlt]; [|lia].
  destruct (pget q p) as [|idx rest]; [simpl in Hfull; lia|].
  exists idx, rest. split; reflexivity.
Qed.

Lemma removeOldest_room : forall e p b q,
  length (pget q p) < n e ->
  removeOldestIfNeeded e p b q = (pget q p, b).
Proof.
  intros e p b q Hroom. unfold removeOldestIfNeeded, maxPieces.
  destruct (Nat.leb_spec (n e) (length (pget q p))) as [Hle|_]; [lia|].
  reflexivity.
Qed.

(** C4.  Under the preconditions of a move (no winner, index on the board,
    cell empty): when the mover's queue holds [n] or more entries, the move
    drops exactly the head of that queue, sets the cell it named to empty,
    then places the piece and appends the new index; when the queue is
    shorter than [n] nothing is evicted, the index is appended and only the
    target cell changes.  The other player's queue is untouched in both
    cases. *)
Theorem applyMove_evicts_oldest : forall (s : GameState) (index : nat) (p : Player),
  legalb s index = true ->
  let q := pget (queues s) p in
  let s' := applyMove s index p s in
  let piece := mkPiece p (pget (nextLabel s) p) in
  (n s <= length q ->
     exists idx rest,
       q = idx :: rest
       /\ pget (queues s') p = rest ++ [index]
       /\ board s' = bset (bset (board s) idx None) index (Some piece)
       /\ (idx <> index -> bget (board s') idx = None)
       /\ (forall j, j <> idx -> j <> index ->
                     bget (board s') j = bget (board s) j))
  /\ (length q < n s ->
        pget (queues s') p = q ++ [index]
        /\ board s' = bset (board s) index (Some piece)
        /\ (forall j, j <> index -> bget (board s') j = bget (board s) j))
  /\ pget (queues s') (other p) = pget (queues s) (other p).
Proof.
  intros s index p Hlegal q s' piece.
  apply legalb_true in Hlegal. destruct Hlegal as (_ & Hrange & _).
  assert (Hn : 1 <= n s) by (destruct (n s); simpl in Hrange; lia).
  subst s'. rewrite applyMove_board, applyMove_queues.
  split; [|split].
  - intros Hfull.
    destruct (removeOldest_full s p (board s) (queues s) Hn Hfull)
      as (idx & rest & Hq & ->).
    exists idx, rest. simpl. rewrite pget_pset_same.
    repeat split; auto.
    + intros Hne. rewrite bget_bset_other by assumption. apply bget_bset_same.
    + intros j Hj1 Hj2. rewrite !bget_bset_other by assumption. reflexivity.
  - intros Hroom.
    rewrite (removeOldest_room s p (board s) (queues s) Hroom). simpl.
    rewrite pget_pset_same. repeat split; auto.
    intros j Hj. apply bget_bset_other. assumption.
  - apply pget_pset_other.
Qed.

Lemma applyMove_evicts_oldest_witness :
  legalb fullQueueState 2 = true
  /\ exists idx rest,
       pget (queues fullQueueState) P1 = idx :: rest
       /\ pget (queues (applyMove fullQueueState 2 P1 fullQueueState)) P1
          = rest ++ [2]
       /\ (idx <> 2 ->
           bget (board (applyMove fullQueueState 2 P1 fullQueueState)) idx
           = None).
Proof.
  split; [reflexivity|].
  pose proof (applyMove_evicts_oldest fullQueueState 2 P1 eq_refl) as H.
  cbv zeta in H. destruct H as (H & _).
  destruct H as (idx & rest & Hq & Hq' & _ & Hb & _); [vm_compute; lia|].
  exists idx, rest. auto.
Defined.

(** ** Labels *)

Lemma next_label_mod : forall m c,
  1 <= m ->
  (if m <=? c mod m + 1 then 1 else c mod m + 1 + 1) = (c + 1) mod m + 1.
Proof.
  intros m c Hm.
  assert (Hr : c mod m < m) by (apply Nat.mod_upper_bound; lia).
  pose proof (Nat.div_mod_eq c m) as Hc.
  destruct (Nat.leb_spec m (c mod m + 1)) as [Hwrap|Hnext].
  - assert (H0 : (c + 1) mod m = 0).
    { symmetry. apply Nat.mod_unique with (q := c / m + 1); lia. }
    rewrite H0. reflexivity.
  - assert (H1 : (c + 1) mod m = c mod m + 1).
    { symmetry. apply Nat.mod_unique with (q := c / m); lia. }
    rewrite H1. reflexivity.
Qed.

Lemma move_places : forall s m,
  bget (board (move s m)) (fst m)
  = Some (mkPiece (snd m) (pget (nextLabel s) (snd m))).
Proof.
  intros s m. unfold move. rewrite applyMove_board. apply bget_bset_same.
Qed.

Lemma placed_cons : forall s m rest,
  placed s (m :: rest)
  = mkPiece (snd m) (pget (nextLabel s) (snd m)) :: placed (move s m) rest.
Proof. intros s m rest. simpl. rewrite move_places. reflexivity. Qed.

Lemma placed_length : forall ms s, length (placed s ms) = length ms.
Proof.
  induction ms as [|m rest IH]; intros s; [reflexivity|].
  rewrite placed_cons. simpl. rewrite IH. reflexivity.
Qed.

Lemma other_of_distinct : forall p q, q <> p -> p = other q.
Proof. intros [] [] H; try reflexivity; contradiction. Qed.

Lemma placedBy_labels_from : forall p ms s c,
  legalRun s ms = true ->
  pget (nextLabel s) p = c mod n s + 1 ->
  forall j pc,
    nth_error (placedBy p s ms) j = Some pc ->
    label pc = (c + j) mod n s + 1.
Proof.
  intros p ms. induction ms as [|m rest IH]; intros s c Hrun Hc j pc Hnth.
  - destruct j; discriminate.
  - simpl in Hrun. apply Bool.andb_true_iff in Hrun.
    destruct Hrun as [Hlegal Hrun].
    apply legalb_true in Hlegal. destruct Hlegal as (_ & Hrange & _).
    assert (Hn : 1 <= n s) by (destruct (n s); simpl in Hrange; lia).
    assert (Hsize : n (move s m) = n s) by apply applyMove_n.
    unfold placedBy in Hnth. rewrite placed_cons in Hnth. simpl in Hnth.
    destruct (player_eqb (snd m) p) eqn:Ep.
    + apply player_eqb_eq in Ep.
      destruct j as [|j]; simpl in Hnth.
      * injection Hnth as <-. simpl. rewrite Ep, Hc, Nat.add_0_r. reflexivity.
      * rewrite <- Hsize.
        replace (c + S j) with ((c + 1) + j) by lia.
        apply (IH (move s m) (c + 1) Hrun); [|exact Hnth].
        unfold move. rewrite applyMove_nextLabel, Ep, pget_pset_same.
        rewrite applyMove_n, Hc. apply next_label_mod. assumption.
    + assert (Hne : snd m <> p).
      { intros Heq. apply player_eqb_eq in Heq. congruence. }
      rewrite <- Hsize. apply (IH (move s m) c Hrun); [|exact Hnth].
      unfold move. rewrite applyMove_nextLabel.
      rewrite (other_of_distinct p (snd m) Hne), pget_pset_other.
      rewrite applyMove_n, <- (other_of_distinct p (snd m) Hne). exact Hc.
Qed.

(** C5.  Along every run of legal moves from the empty state of size [m],
    every move places one piece, and the [k]-th piece placed by player [p]
    carries the label [((k - 1) mod m) + 1], whatever the other player does
    in between.  At each move the piece gets the mover's current counter as
    its label, and the counter becomes 1 when that label is [>= n] and the
    label plus one otherwise; the other player's counter stays. *)
Theorem labels_cycle_per_player : forall (m : nat) (ms : list Move) (p : Player),
  legalRun (emptyState m) ms = true ->
  length (placed (emptyState m) ms) = length ms
  /\ (forall k pc,
        1 <= k ->
        nth_error (placedBy p (emptyState m) ms) (k - 1) = Some pc ->
        label pc = (k - 1) mod m + 1)
  /\ (forall s index q,
        let s' := applyMove s index q s in
        let lbl := pget (nextLabel s) q in
        bget (board s') index = Some (mkPiece q lbl)
        /\ pget (nextLabel s') q = (if n s <=? lbl then 1 else lbl + 1)
        /\ pget (nextLabel s') (other q) = pget (nextLabel s) (other q)).
Proof.
  intros m ms p Hrun. split; [apply placed_length|]. split.
  - intros k pc Hk Hnth.
    apply (placedBy_labels_from p ms (emptyState m) 0 Hrun) in Hnth.
    + exact Hnth.
    + simpl. rewrite Nat.Div0.mod_0_l. destruct p; reflexivity.
  - intros s index q s' lbl. subst s' lbl.
    rewrite applyMove_board, applyMove_nextLabel.
    rewrite bget_bset_same, pget_pset_same, pget_pset_other. auto.
Qed.

(** In [sampleRun] the fourth piece of player 1 is labelled 1 again. *)
Lemma labels_cycle_per_player_witness :
  legalRun (emptyState 3) sampleRun = true
  /\ forall pc,
       nth_error (placedBy P1 (emptyState 3) sampleRun) (4 - 1) = Some pc ->
       label pc = (4 - 1) mod 3 + 1.
Proof.
  split; [reflexivity|].
  destruct (labels_cycle_per_player 3 sampleRun P1 eq_refl) as (_ & H & _).
  intros pc. apply (H 4 pc). lia.
Defined.

(** ** Turn and win *)

Lemma rerender_same : forall s, rerender s s = s.
Proof. intros s. unfold rerender. rewrite Nat.eqb_refl. reflexivity. Qed.

Lemma click_after_win : forall mode role iAm connRef s i,
  win s <> None -> onCanvasClick s mode role iAm connRef i s = (s, []).
Proof.
  intros mode role iAm connRef s i Hwin. unfold onCanvasClick.
  destruct (win s); [reflexivity|contradiction].
Qed.

(** A click in local play on a legal cell applies the move for the player
    whose turn it is. *)
Lemma click_applies_move : forall role iAm connRef s i,
  legalb s i = true ->
  onCanvasClick s Local role iAm connRef i s = (applyMove s i (turn s) s, []).
Proof.
  intros role iAm connRef s i Hlegal. apply legalb_true in Hlegal.
  destruct Hlegal as (Hwin & _ & Hcell). unfold onCanvasClick.
  rewrite Hwin, Hcell. reflexivity.
Qed.

(** C6.  A move records the result of win detection on the board it
    produced.  When no line is complete the turn passes to the player other
    than the mover and [win] stays empty; when a line is complete the turn
    keeps its value and [win] holds that result.  Once [win] is set, a click
    changes nothing and neither does an attempt handled by closures of the
    current render; among the user actions only a reset or a change of the
    board size clears it. *)
Theorem applyMove_turn_and_win : forall (s : GameState) (index : nat) (p : Player),
  let s' := applyMove s index p s in
  win s' = checkWin (board s') (n s)
  /\ (checkWin (board s') (n s) = None ->
      turn s' = other p /\ win s' = None)
  /\ (forall r, checkWin (board s') (n s) = Some r ->
                turn s' = turn s /\ win s' = Some r)
  /\ (forall mode role iAm connRef i,
        win s <> None -> step mode role iAm connRef s (Click i) = s)
  /\ (forall connRef idx,
        win s <> None -> hostOnData s connRef (MsgAttempt idx) s = (s, []))
  /\ (forall mode role iAm connRef ev,
        win s <> None ->
        win (step mode role iAm connRef s ev) = None ->
        ev = ResetClick \/ exists m, ev = SizeClick m /\ m <> n s).
Proof.
  intros s index p s'. subst s'.
  split; [apply applyMove_win|]. split; [|split; [|split; [|split]]].
  - intros Hnone. rewrite applyMove_turn, applyMove_win, Hnone. auto.
  - intros r Hsome. rewrite applyMove_turn, applyMove_win, Hsome. auto.
  - intros mode role iAm connRef i Hwin. simpl.
    rewrite click_after_win by assumption. apply rerender_same.
  - intros connRef idx Hwin. unfold hostOnData.
    destruct (win s); [|contradiction].
    rewrite Bool.orb_true_r. reflexivity.
  - intros mode role iAm connRef ev Hwin Hcleared. destruct ev as [i| |m].
    + simpl in Hcleared. rewrite click_after_win in Hcleared by assumption.
      simpl in Hcleared. rewrite rerender_same in Hcleared. contradiction.
    + left. reflexivity.
    + right. exists m. split; [reflexivity|]. intros ->.
      simpl in Hcleared. unfold rerender in Hcleared. simpl in Hcleared.
      rewrite Nat.eqb_refl in Hcleared. simpl in Hcleared. contradiction.
Qed.

(** ** Queue capacity *)

Lemma move_n : forall s m, n (move s m) = n s.
Proof. intros s m. apply applyMove_n. Qed.

Lemma play_n : forall ms s, n (play s ms) = n s.
Proof.
  induction ms as [|m rest IH]; intros s; simpl; [reflexivity|].
  rewrite IH. apply move_n.
Qed.

Lemma removeOldest_length : forall e p b q,
  length (pget q p) <= n e ->
  S (length (fst (removeOldestIfNeeded e p b q))) <= n e
  \/ (n e = 0 /\ pget q p = []).
Proof.
  intros e p b q Hle. unfold removeOldestIfNeeded, maxPieces.
  destruct (Nat.leb_spec (n e) (length (pget q p))) as [Hfull|Hroom].
  - destruct (pget q p) as [|idx rest] eqn:Eq.
    + right. simpl in Hfull. split; [lia|reflexivity].
    + left. simpl in *. lia.
  - left. simpl. lia.
Qed.

Lemma move_keeps_capacity : forall s m,
  legalb s (fst m) = true ->
  (forall p, length (pget (queues s) p) <= n s) ->
  forall p, length (pget (queues (move s m)) p) <= n (move s m).
Proof.
  intros s [i q] Hlegal Hcap p. rewrite move_n. unfold move. simpl fst in *.
  simpl snd. apply legalb_true in Hlegal. destruct Hlegal as (_ & Hrange & _).
  assert (Hn : 1 <= n s) by (destruct (n s); simpl in Hrange; lia).
  rewrite applyMove_queues.
  destruct (player_eqb q p) eqn:Ep.
  - apply player_eqb_eq in Ep. subst q. rewrite pget_pset_same.
    destruct (removeOldest_length s p (board s) (queues s) (Hcap p))
      as [Hlen|[H0 _]]; [|lia].
    rewrite length_app. simpl. lia.
  - assert (Hne : q <> p).
    { intros Heq. apply player_eqb_eq in Heq. congruence. }
    rewrite (other_of_distinct p q Hne), pget_pset_other. apply Hcap.
Qed.

Lemma run_keeps_capacity : forall ms s,
  legalRun s ms = true ->
  (forall p, length (pget (queues s) p) <= n s) ->
  forall k p, length (pget (queues (play s (firstn k ms))) p) <= n s.
Proof.
  induction ms as [|m rest IH]; intros s Hrun Hcap k p.
  - rewrite firstn_nil. apply Hcap.
  - destruct k as [|k]; [apply Hcap|].
    simpl in Hrun. apply Bool.andb_true_iff in Hrun.
    destruct Hrun as [Hlegal Hrun].
    rewrite firstn_cons. simpl play. rewrite <- (move_n s m).
    apply IH; [assumption|]. apply move_keeps_capacity; assumption.
Qed.

(** C7.  Along every run of legal moves from the empty state of size [m],
    after each prefix of the run (so in every intermediate state and in the
    final one) the queue of each player holds at most [m] indices.  The bound
    holds for every [m], in particular for every [m >= 3]. *)
Theorem queue_length_at_most_n : forall (m : nat) (ms : list Move),
  legalRun (emptyState m) ms = true ->
  forall k p,
    length (pget (queues (play (emptyState m) (firstn k ms))) p) <= m.
Proof.
  intros m ms Hrun k p.
  apply (run_keeps_capacity ms (emptyState m) Hrun).
  intros []; simpl; lia.
Qed.

(** After all eight moves of [sampleRun] the queue of player 2 holds three
    indices. *)
Lemma queue_length_at_most_n_witness :
  legalRun (emptyState 3) sampleRun = true
  /\ length (pget (queues (play (emptyState 3) (firstn 8 sampleRun))) P2) <= 3.
Proof.
  split; [reflexivity|].
  apply (queue_length_at_most_n 3 sampleRun eq_refl 8 P2).
Defined.

(** ** Queues and board *)

(** What a move does to the mover's queue and to the cells: at most the
    head [gone] of the queue leaves, its cell is emptied, and the target cell
    receives the piece. *)
Lemma move_shape : forall s i p,
  exists gone kept,
    pget (queues s) p = gone ++ kept
    /\ (gone = [] \/ exists idx, gone = [idx])
    /\ queues (applyMove s i p s) = pset (queues s) p (kept ++ [i])
    /\ forall j,
         bget (board (applyMove s i p s)) j =
         if j =? i then Some (mkPiece p (pget (nextLabel s) p))
         else if existsb (Nat.eqb j) gone then None
         else bget (board s) j.
Proof.
  intros s i p. rewrite applyMove_queues.
  assert (Hb := applyMove_board s i p s).
  unfold removeOldestIfNeeded in *.
  destruct (maxPieces s <=? length (pget (queues s) p)).
  - destruct (pget (queues s) p) as [|idx rest].
    + exists [], []. repeat split; auto.
      intros j. rewrite Hb. simpl. apply bget_bset.
    + exists [idx], rest. repeat split; eauto.
      intros j. rewrite Hb. simpl. rewrite !bget_bset.
      destruct (j =? i); [reflexivity|].
      destruct (j =? idx); reflexivity.
  - exists [], (pget (queues s) p). repeat split; auto.
    intros j. rewrite Hb. simpl. apply bget_bset.
Qed.

Lemma consistent_empty_cell : forall s i p,
  consistent s -> bget (board s) i = None -> ~ In i (pget (queues s) p).
Proof.
  intros s i p [_ Hq] Hcell Hin. apply Hq in Hin.
  destruct Hin as (pc & Hpc & _). congruence.
Qed.

Lemma consistent_one_owner : forall s i p,
  consistent s -> In i (pget (queues s) p) -> ~ In i (pget (queues s) (other p)).
Proof.
  intros s i p [_ Hq] Hp Ho. apply Hq in Hp. apply Hq in Ho.
  destruct Hp as (pc & Hpc & Hown). destruct Ho as (pc' & Hpc' & Hown').
  rewrite Hpc in Hpc'. injection Hpc' as <-.
  rewrite Hown in Hown'. destruct p; discriminate.
Qed.

Lemma NoDup_snoc : forall (l : list nat) x,
  NoDup l -> ~ In x l -> NoDup (l ++ [x]).
Proof.
  intros l x Hl Hx. apply NoDup_app; [assumption|repeat constructor; auto|].
  intros a Ha [<-|[]]. contradiction.
Qed.

Lemma other_involutive : forall p, other (other p) = p.
Proof. intros []; reflexivity. Qed.

Lemma player_cases : forall p q, q = p \/ q = other p.
Proof. intros [] []; auto. Qed.

Lemma other_distinct : forall p, other p <> p.
Proof. intros []; discriminate. Qed.

Lemma move_keeps_consistent : forall s m,
  legalb s (fst m) = true -> consistent s -> consistent (move s m).
Proof.
  intros s [i p] Hlegal Hs. simpl in Hlegal.
  apply legalb_true in Hlegal. destruct Hlegal as (_ & _ & Hcell).
  pose proof (consistent_empty_cell s i) as Hfree.
  pose proof (consistent_one_owner s) as Hone.
  destruct Hs as [Hnd Hq]. unfold move. simpl fst. simpl snd.
  destruct (move_shape s i p) as (gone & kept & Hsplit & Hgone & Hqs & Hcells).
  assert (Hkept_nd : NoDup kept).
  { specialize (Hnd p). rewrite Hsplit in Hnd.
    apply NoDup_app_remove_l in Hnd. assumption. }
  assert (Hgone_kept : forall j, existsb (Nat.eqb j) gone = true ->
                                 In j (pget (queues s) p) /\ ~ In j kept).
  { intros j Hj. destruct Hgone as [->|[idx ->]]; [discriminate|].
    simpl in Hj. rewrite Bool.orb_false_r in Hj. apply Nat.eqb_eq in Hj.
    subst j. specialize (Hnd p). rewrite Hsplit in *. simpl in *.
    inversion Hnd; subst. auto. }
  assert (Hkept_in : forall j, In j kept -> In j (pget (queues s) p)).
  { intros j Hj. rewrite Hsplit. apply in_or_app. auto. }
  assert (Hi_kept : ~ In i kept).
  { intros Hin. apply (Hfree p (conj Hnd Hq) Hcell). auto. }
  split.
  - intros q. rewrite Hqs. destruct (player_cases p q) as [->| ->].
    + rewrite pget_pset_same. apply NoDup_snoc; assumption.
    + rewrite pget_pset_other. apply Hnd.
  - intros j q. rewrite Hqs, Hcells.
    destruct (Nat.eqb_spec j i) as [->|Hji].
    + destruct (player_cases p q) as [->| ->].
      * rewrite pget_pset_same. split.
        -- intros _. eexists. split; reflexivity.
        -- intros _. apply in_or_app. right. left. reflexivity.
      * rewrite pget_pset_other. split.
        -- intros Hin. elim (Hfree (other p) (conj Hnd Hq) Hcell Hin).
        -- intros (pc & [= <-] & Hown). simpl in Hown.
           elim (other_distinct p). auto.
    + destruct (existsb (Nat.eqb j) gone) eqn:Eg.
      * destruct (Hgone_kept j Eg) as [Hin Hnot].
        destruct (player_cases p q) as [->| ->].
        -- rewrite pget_pset_same. split.
           ++ intros Hj. apply in_app_or in Hj.
              destruct Hj as [Hj|[Hj|[]]]; [contradiction|congruence].
           ++ intros (pc & Hpc & _). discriminate.
        -- rewrite pget_pset_other. split.
           ++ intros Hj. elim (Hone j p (conj Hnd Hq) Hin Hj).
           ++ intros (pc & Hpc & _). discriminate.
      * destruct (player_cases p q) as [->| ->].
        -- rewrite pget_pset_same, <- Hq. split.
           ++ intros Hj. apply in_app_or in Hj.
              destruct Hj as [Hj|[Hj|[]]]; [auto|congruence].
           ++ intros Hj. apply in_or_app. left.
              rewrite Hsplit in Hj. apply in_app_or in Hj.
              destruct Hj as [Hj|Hj]; [|assumption].
              destruct Hgone as [->|[idx ->]]; [destruct Hj|].
              destruct Hj as [<-|[]]. simpl in Eg.
              rewrite Nat.eqb_refl in Eg. discriminate.
        -- rewrite pget_pset_other. apply Hq.
Qed.

Lemma emptyState_consistent : forall m, consistent (emptyState m).
Proof.
  intros m. split.
  - intros []; constructor.
  - intros i p. simpl. rewrite bget_emptyBoard. split.
    + destruct p; intros [].
    + intros (pc & Hpc & _). discriminate.
Qed.

Lemma run_keeps_consistent : forall ms s,
  legalRun s ms = true -> consistent s -> consistent (play s ms).
Proof.
  induction ms as [|m rest IH]; intros s Hrun Hs; [assumption|].
  simpl in Hrun. apply Bool.andb_true_iff in Hrun.
  destruct Hrun as [Hlegal Hrun]. simpl.
  apply IH; [assumption|]. apply move_keeps_consistent; assumption.
Qed.

(** C8.  In every state reached from the empty state by legal moves, a cell
    is occupied exactly when its index is in one of the two queues and not in
    the other; no index is in both queues, no queue repeats an index, and an
    occupied cell is listed in the queue of the owner of its piece. *)
Theorem board_matches_queues : forall (m : nat) (ms : list Move),
  legalRun (emptyState m) ms = true ->
  let s := play (emptyState m) ms in
  let q1 := pget (queues s) P1 in
  let q2 := pget (queues s) P2 in
  (forall i, bget (board s) i <> None <->
             (In i q1 /\ ~ In i q2) \/ (In i q2 /\ ~ In i q1))
  /\ (forall i, ~ (In i q1 /\ In i q2))
  /\ NoDup q1 /\ NoDup q2
  /\ (forall i pc, bget (board s) i = Some pc ->
                   In i (pget (queues s) (player pc))).
Proof.
  intros m ms Hrun s q1 q2.
  assert (Hs : consistent s).
  { apply run_keeps_consistent; [assumption|apply emptyState_consistent]. }
  assert (Hdisj : forall i, ~ (In i q1 /\ In i q2)).
  { intros i [H1 H2]. apply (consistent_one_owner s i P1 Hs H1). exact H2. }
  destruct Hs as [Hnd Hq]. split; [|split; [|split; [|split]]].
  - intros i. split.
    + intros Hocc. destruct (bget (board s) i) as [pc|] eqn:E; [|contradiction].
      assert (Hin : In i (pget (queues s) (player pc))).
      { apply Hq. exists pc. auto. }
      destruct (player pc); [left|right]; split; auto;
        intros Hx; apply (Hdisj i); auto.
    + intros [[Hin _]|[Hin _]]; apply Hq in Hin;
        destruct Hin as (pc & -> & _); discriminate.
  - exact Hdisj.
  - apply (Hnd P1).
  - apply (Hnd P2).
  - intros i pc Hpc. apply Hq. exists pc. auto.
Qed.

(** After [sampleRun] cell 2 is occupied and listed by player 1 only. *)
Lemma board_matches_queues_witness :
  legalRun (emptyState 3) sampleRun = true
  /\ (bget (board (play (emptyState 3) sampleRun)) 2 <> None <->
      (In 2 (pget (queues (play (emptyState 3) sampleRun)) P1)
       /\ ~ In 2 (pget (queues (play (emptyState 3) sampleRun)) P2))
      \/ (In 2 (pget (queues (play (emptyState 3) sampleRun)) P2)
          /\ ~ In 2 (pget (queues (play (emptyState 3) sampleRun)) P1))).
Proof.
  split; [reflexivity|].
  pose proof (board_matches_queues 3 sampleRun eq_refl) as H.
  cbv zeta in H. destruct H as (H & _). apply (H 2).
Defined.

(** ** Hydration *)

Lemma hydrate_replaces : forall s store, hydrateFromState (Some s) store = s.
Proof. intros [] store. reflexivity. Qed.

Lemma snapshot_is_render : forall e, snapshotState e = e.
Proof. intros []. reflexivity. Qed.

(** A snapshot of the same board size is adopted as it is: the render after
    hydration yields that snapshot. *)
Lemma hydrate_same_size_roundtrip : forall e s,
  n s = n e ->
  snapshotState (rerender e (guestOnData (MsgState (Some s)) e)) = s.
Proof.
  intros e s Hn. unfold guestOnData.
  rewrite hydrate_replaces, snapshot_is_render.
  unfold rerender. rewrite Hn, Nat.eqb_refl. reflexivity.
Qed.

(** A snapshot of another board size sets [n], which fires the resize
    effect: every other field is back to its initial value. *)
Lemma hydrate_other_size_resets : forall e s,
  n s <> n e ->
  snapshotState (rerender e (guestOnData (MsgState (Some s)) e))
  = resizeEffect s.
Proof.
  intros e s Hn. unfold guestOnData.
  rewrite hydrate_replaces, snapshot_is_render.
  unfold rerender. destruct (Nat.eqb_spec (n s) (n e)); [contradiction|].
  reflexivity.
Qed.

(** C2, at a snapshot of another size.  A guest on the 3x3 board receives
    the 4x4 snapshot in which player 1 has a piece on cell 5.  Once the
    renders have settled the guest holds the empty 4x4 state: the piece, the
    queue entry, the label counter and the turn of the snapshot are lost. *)
Theorem hydrate_resized_snapshot_is_reset :
  n snapshot4 <> n mountState
  /\ bget (board snapshot4) 5 = Some (mkPiece P1 1)
  /\ turn snapshot4 = P2
  /\ snapshotState
       (rerender mountState (guestOnData (MsgState (Some snapshot4)) mountState))
     = emptyState 4
  /\ snapshotState
       (rerender mountState (guestOnData (MsgState (Some snapshot4)) mountState))
     <> snapshot4.
Proof.
  repeat split; try reflexivity; try discriminate.
Qed.

(** C10.  Hydrating from a missing snapshot writes no field: the hooks are
    what they were, a state message without payload leaves the guest as it
    is, and the following render runs no effect. *)
Theorem hydrate_null_is_noop : forall (store : GameState),
  hydrateFromState None store = store
  /\ guestOnData (MsgState None) store = store
  /\ rerender store (hydrateFromState None store) = store
  /\ n (hydrateFromState None store) = n store
  /\ board (hydrateFromState None store) = board store
  /\ turn (hydrateFromState None store) = turn store
  /\ queues (hydrateFromState None store) = queues store
  /\ nextLabel (hydrateFromState None store) = nextLabel store
  /\ win (hydrateFromState None store) = win store.
Proof.
  intros store. simpl. rewrite rerender_same. repeat split; reflexivity.
Qed.

(** ** The host's attempt handler *)

(** What the handler does with an attempt: the three guards read the render
    [e] of the handler; the index is only required to be a number whose cell
    reads as falsy. *)
Lemma hostOnData_attempt : forall e connRef idx store,
  hostOnData e connRef (MsgAttempt idx) store =
  match turn e, win e, idx with
  | P2, None, IdxNum i =>
      match bget (board e) i with
      | None => (applyMove e i P2 store, broadcastState e connRef)
      | Some _ => (store, [])
      end
  | _, _, _ => (store, [])
  end.
Proof.
  intros e connRef idx store. unfold hostOnData.
  destruct (turn e), (win e), idx; reflexivity.
Qed.

(** The three guards that the handler has do discard the attempt. *)
Lemma hostOnData_attempt_discarded : forall e connRef idx store,
  turn e <> P2
  \/ win e <> None
  \/ idx = IdxNotNumber
  \/ (exists i pc, idx = IdxNum i /\ bget (board e) i = Some pc) ->
  hostOnData e connRef (MsgAttempt idx) store = (store, []).
Proof.
  intros e connRef idx store H. rewrite hostOnData_attempt.
  destruct (turn e) eqn:Et; [reflexivity|].
  destruct (win e) eqn:Ew; [reflexivity|].
  destruct idx as [i|]; [|reflexivity].
  destruct (bget (board e) i) eqn:Eb; [reflexivity|].
  destruct H as [H|[H|[H|(i' & pc & Hi & Hpc)]]]; try congruence.
Qed.

(** A handler registered in a render where it is the host's turn discards
    every attempt, whatever the hooks hold when the attempt arrives. *)
Lemma hostOnData_reads_its_render : forall e connRef idx store,
  turn e = P1 -> hostOnData e connRef (MsgAttempt idx) store = (store, []).
Proof.
  intros e connRef idx store Ht. apply hostOnData_attempt_discarded.
  left. rewrite Ht. discriminate.
Qed.

(** C1, at an index past the board.  On the 3x3 board, after the host's
    first move, it is the guest's turn and there is no winner.  An attempt
    at index 9 fails the range check [index < 9], yet the handler applies
    it: the board grows to ten cells, queue 2 receives 9, the turn passes
    to player 1, and a state message is sent. *)
Theorem host_applies_attempt_out_of_range :
  turn afterFirstMove = P2
  /\ win afterFirstMove = None
  /\ length (board afterFirstMove) = 9
  /\ (9 <? n afterFirstMove * n afterFirstMove) = false
  /\ fst (hostOnData afterFirstMove (Some (mkConn true))
                     (MsgAttempt (IdxNum 9)) afterFirstMove)
     <> afterFirstMove
  /\ length (board (fst (hostOnData afterFirstMove (Some (mkConn true))
                                    (MsgAttempt (IdxNum 9)) afterFirstMove)))
     = 10
  /\ pget (queues (fst (hostOnData afterFirstMove (Some (mkConn true))
                                   (MsgAttempt (IdxNum 9)) afterFirstMove))) P2
     = [9]
  /\ turn (fst (hostOnData afterFirstMove (Some (mkConn true))
                           (MsgAttempt (IdxNum 9)) afterFirstMove))
     = P1
  /\ length (snd (hostOnData afterFirstMove (Some (mkConn true))
                             (MsgAttempt (IdxNum 9)) afterFirstMove))
     = 1.
Proof.
  repeat split; try reflexivity. vm_compute. discriminate.
Qed.

(** ** Sends *)

(** A broadcast makes a [send] call only on an open connection. *)
Lemma broadcast_needs_open : forall e connRef,
  broadcastState e connRef <> [] ->
  exists conn, connRef = Some conn /\ open conn = true.
Proof.
  intros e [conn|] H; simpl in H; [|contradiction].
  exists conn. destruct (open conn); [auto|contradiction].
Qed.

(** The guest's click looks only at whether there is a connection. *)
Lemma guest_click_sends : forall e conn i store,
  win e = None -> turn e = P2 -> bget (board e) i = None ->
  onCanvasClick e Online (Some Guest) P2 (Some conn) i store
  = (store, [MsgAttempt (IdxNum i)]).
Proof.
  intros e conn i store Hw Ht Hb. unfold onCanvasClick.
  rewrite Hw, Ht, Hb. reflexivity.
Qed.

(** C9, at a closed connection.  The guest holds the state after the host's
    first move, so it is the guest's turn, and its connection is not open.
    A click on the empty cell 4 still calls [send] with an attempt; a
    broadcast over the same connection sends nothing. *)
Theorem guest_attempt_ignores_open_flag :
  open (mkConn false) = false
  /\ onCanvasClick afterFirstMove Online (Some Guest) P2 (Some (mkConn false))
                   4 afterFirstMove
     = (afterFirstMove, [MsgAttempt (IdxNum 4)])
  /\ broadcastState afterFirstMove (Some (mkConn false)) = [].
Proof.
  repeat split; reflexivity.
Qed.

(** ** Scenarios *)

(** Player 1 takes the main diagonal of the 3x3 board with labels 1, 2, 3
    and wins with the line 0, 4, 8. *)
Example diagonal_win_scenario :
  let ms := [(0, P1); (1, P2); (4, P1); (2, P2); (8, P1)] in
  legalRun (emptyState 3) ms = true
  /\ map label (placedBy P1 (emptyState 3) ms) = [1; 2; 3]
  /\ win (play (emptyState 3) ms) = Some (mkWin P1 [0; 4; 8])
  /\ turn (play (emptyState 3) ms) = P1.
Proof. repeat split; reflexivity. Qed.

(** The initial hooks are the empty state of size 3, and so is the state
    after a reset or after a change of size to 3; a change to any other
    size gives sixteen cells. *)
Example initial_states :
  mountState = emptyState 3
  /\ fst (resetGame afterFirstMove Local None None afterFirstMove) = emptyState 3
  /\ step Local None P1 None (emptyState 4) (SizeClick 3) = emptyState 3
  /\ step Local None P1 None afterFirstMove (SizeClick 4) = emptyState 4.
Proof. repeat split; reflexivity. Qed.

(** * Further properties of the program *)

(** ** Cells and indices *)

(** For a board size [n >= 1], [cellAt] and [idxAt] are inverse to each
    other: an index splits into a row and a column [< n] that give the index
    back, a row and a column [< n] give an index that splits into them, and
    cells of the grid correspond to the indices below [n * n]. *)
Theorem cell_index_roundtrip : forall (n r c k : nat),
  1 <= n ->
  idxAt (fst (cellAt k n)) (snd (cellAt k n)) n = k
  /\ snd (cellAt k n) < n
  /\ (c < n -> cellAt (idxAt r c n) n = (r, c))
  /\ (r < n -> c < n -> idxAt r c n < n * n)
  /\ (k < n * n -> fst (cellAt k n) < n).
Proof.
  intros n r c k Hn. split; [apply idx_of_cell|]. split; [|split; [|split]].
  - unfold cellAt. simpl. apply Nat.mod_upper_bound. lia.
  - apply cell_of_idx.
  - intros Hr Hc. unfold idxAt. nia.
  - intros Hk. apply (cell_in_grid n k Hk).
Qed.

Lemma cell_index_roundtrip_witness :
  1 <= 4 /\ cellAt (idxAt 2 3 4) 4 = (2, 3)
  /\ idxAt (fst (cellAt 11 4)) (snd (cellAt 11 4)) 4 = 11.
Proof.
  destruct (cell_index_roundtrip 4 2 3 11) as (Hk & _ & Hrc & _); [lia|].
  split; [lia|]. split; [apply Hrc; lia|exact Hk].
Defined.

(** ** Candidate lines *)

Lemma lines_cases : forall n l,
  In l (lines n) ->
  (exists i, i < n /\ (l = rowLine n i \/ l = colLine n i))
  \/ l = diagLine n \/ l = antiLine n.
Proof.
  intros n l Hin. rewrite lines_unfold in Hin.
  apply in_app_or in Hin. destruct Hin as [Hin|Hin].
  - left. apply in_flat_map in Hin. destruct Hin as (i & Hi & Hl).
    apply in_seq in Hi. exists i. split; [lia|].
    destruct Hl as [<-|[<-|[]]]; auto.
  - right. destruct Hin as [<-|[<-|[]]]; auto.
Qed.

Lemma NoDup_map_on : forall (f : nat -> nat) l,
  (forall x y, In x l -> In y l -> f x = f y -> x = y) ->
  NoDup l -> NoDup (map f l).
Proof.
  intros f l. induction l as [|a l IH]; intros Hinj Hnd; simpl; [constructor|].
  inversion Hnd as [|? ? Ha Hl]; subst. constructor.
  - intros Hin. apply in_map_iff in Hin. destruct Hin as (x & Hfx & Hx).
    assert (x = a) by (apply Hinj; simpl; auto). subst x. contradiction.
  - apply IH; [|assumption]. intros x y Hx Hy. apply Hinj; simpl; auto.
Qed.

Lemma tabulate_cells_NoDup : forall n (row col : nat -> nat) (pick : nat * nat -> nat),
  (forall j, j < n -> col j < n) ->
  (forall j, j < n -> pick (row j, col j) = j) ->
  NoDup (tabulate n (fun j => idxAt (row j) (col j) n)).
Proof.
  intros n row col pick Hcol Hpick. unfold tabulate.
  apply NoDup_map_on; [|apply seq_NoDup].
  intros x y Hx Hy Heq. apply in_seq in Hx. apply in_seq in Hy.
  assert (Hc : cellAt (idxAt (row x) (col x) n) n
               = cellAt (idxAt (row y) (col y) n) n) by (rewrite Heq; reflexivity).
  rewrite !cell_of_idx in Hc by (apply Hcol; lia).
  rewrite <- (Hpick x), <- (Hpick y) by lia. rewrite Hc. reflexivity.
Qed.

Lemma lines_NoDup : forall n l, In l (lines n) -> NoDup l.
Proof.
  intros n l Hin. destruct (lines_cases n l Hin) as [(i & Hi & [->| ->])|[->| ->]].
  - apply (tabulate_cells_NoDup n (fun _ => i) (fun j => j) snd); auto.
  - apply (tabulate_cells_NoDup n (fun j => j) (fun _ => i) fst); auto.
  - apply (tabulate_cells_NoDup n (fun j => j) (fun j => j) fst); auto.
  - apply (tabulate_cells_NoDup n (fun j => j) (fun j => n - 1 - j) fst); auto.
    intros j Hj. lia.
Qed.

Lemma lines_in_grid : forall n l k, In l (lines n) -> In k l -> k < n * n.
Proof.
  intros n l k Hin Hk.
  destruct (lines_cases n l Hin) as [(i & Hi & [->| ->])|[->| ->]].
  - apply (proj2 (rowLine_isLine n i Hi)) in Hk. tauto.
  - apply (proj2 (colLine_isLine n i Hi)) in Hk. tauto.
  - apply (proj2 (diagLine_isLine n)) in Hk. tauto.
  - apply (proj2 (antiLine_isLine n)) in Hk. tauto.
Qed.

(** Every candidate line of [checkWin] names [n] pairwise distinct cells,
    all of them on the [n] x [n] board: the scan never reads past the end of
    a board of [n * n] cells and never counts a cell twice. *)
Theorem lines_stay_on_board : forall (n : nat) (l : list nat),
  In l (lines n) ->
  length l = n /\ NoDup l /\ forall k, In k l -> k < n * n.
Proof.
  intros n l Hin. split; [apply lines_have_n_cells; assumption|].
  split; [apply (lines_NoDup n); assumption|].
  intros k. apply lines_in_grid. assumption.
Qed.

Lemma lines_stay_on_board_witness :
  In [2; 4; 6] (lines 3)
  /\ NoDup [2; 4; 6] /\ forall k, In k [2; 4; 6] -> k < 3 * 3.
Proof.
  assert (Hin : In [2; 4; 6] (lines 3)) by (vm_compute; tauto).
  split; [exact Hin|].
  destruct (lines_stay_on_board 3 [2; 4; 6] Hin) as (_ & Hnd & Hk).
  split; assumption.
Defined.

(** ** Labels and win detection *)

Lemma bget_relabel : forall f b i,
  bget (relabel f b) i
  = option_map (fun pc => mkPiece (player pc) (f pc)) (bget b i).
Proof.
  intros f b i. unfold bget, relabel. rewrite nth_error_map.
  destruct (nth_error b i) as [c|]; reflexivity.
Qed.

Lemma forallb_same : forall (f g : nat -> bool) l,
  (forall a, f a = g a) -> forallb f l = forallb g l.
Proof.
  intros f g l H. induction l as [|a l IH]; simpl; [reflexivity|].
  rewrite H, IH. reflexivity.
Qed.

Lemma lineWinner_relabel : forall f b l,
  lineWinner (relabel f b) l = lineWinner b l.
Proof.
  intros f b l. unfold lineWinner. destruct l as [|i0 t]; [reflexivity|].
  rewrite bget_relabel. destruct (bget b i0) as [first|]; [|reflexivity].
  cbn [option_map player].
  rewrite (forallb_same
             (fun i => match bget (relabel f b) i with
                       | Some pc => player_eqb (player pc) (player first)
                       | None => false
                       end)
             (fun i => match bget b i with
                       | Some pc => player_eqb (player pc) (player first)
                       | None => false
                       end)); [reflexivity|].
  intros i. rewrite bget_relabel. destruct (bget b i); reflexivity.
Qed.

(** Win detection does not look at labels: writing any other labels on the
    pieces of a board leaves the result of [checkWin] unchanged. *)
Theorem checkWin_ignores_labels : forall (f : Piece -> nat) (b : Board) (n : nat),
  checkWin (relabel f b) n = checkWin b n.
Proof.
  intros f b n. unfold checkWin. induction (lines n) as [|l rest IH]; simpl.
  - reflexivity.
  - rewrite lineWinner_relabel, IH. reflexivity.
Qed.

(** ** Runs, one move after another *)

Lemma play_app : forall ms ms' s, play s (ms ++ ms') = play (play s ms) ms'.
Proof.
  induction ms as [|m rest IH]; intros ms' s; simpl; [reflexivity|apply IH].
Qed.

Lemma legalRun_app : forall ms ms' s,
  legalRun s (ms ++ ms') = legalRun s ms && legalRun (play s ms) ms'.
Proof.
  induction ms as [|m rest IH]; intros ms' s; simpl; [reflexivity|].
  rewrite IH, Bool.andb_assoc. reflexivity.
Qed.

Lemma legalRun_last : forall ms m s,
  legalRun s (ms ++ [m]) = true ->
  legalRun s ms = true /\ legalb (play s ms) (fst m) = true.
Proof.
  intros ms m s H. rewrite legalRun_app in H. simpl in H.
  rewrite Bool.andb_true_r in H. apply Bool.andb_true_iff in H. exact H.
Qed.

Lemma run_capacity : forall ms s,
  legalRun s ms = true ->
  (forall p, length (pget (queues s) p) <= n s) ->
  forall p, length (pget (queues (play s ms)) p) <= n s.
Proof.
  intros ms s Hrun Hcap p.
  pose proof (run_keeps_capacity ms s Hrun Hcap (length ms) p) as H.
  rewrite firstn_all in H. exact H.
Qed.

Lemma emptyState_capacity : forall m p,
  length (pget (queues (emptyState m)) p) <= n (emptyState m).
Proof. intros m []; simpl; lia. Qed.

(** ** The recorded win *)

Lemma lineWinner_emptyBoard : forall k l, lineWinner (emptyBoard k) l = None.
Proof.
  intros k [|i0 t]; [reflexivity|]. unfold lineWinner.
  rewrite bget_emptyBoard. reflexivity.
Qed.

Lemma checkWin_emptyBoard : forall k m, checkWin (emptyBoard k) m = None.
Proof.
  intros k m. apply scanLines_none. intros l _. apply lineWinner_emptyBoard.
Qed.

Lemma checkWin_some_owned : forall b m w l,
  checkWin b m = Some (mkWin w l) -> In l (lines m) /\ ownedBy b w l.
Proof.
  intros b m w l H. unfold checkWin in H. apply scanLines_first in H.
  destruct H as (k & Hk & Hw & _). split.
  - eapply nth_error_In. exact Hk.
  - apply lineWinner_owned in Hw. tauto.
Qed.

Lemma checkWin_none_unowned : forall b m p l,
  1 <= m -> checkWin b m = None -> In l (lines m) -> ~ ownedBy b p l.
Proof.
  intros b m p l Hm H Hin. unfold checkWin in H.
  rewrite scanLines_none in H. specialize (H l Hin).
  assert (Hne : l <> []) by (apply (lines_nonempty m); assumption).
  apply (proj1 (lineWinner_none b l Hne) H).
Qed.

Lemma run_win_in_sync : forall ms s,
  win s = checkWin (board s) (n s) ->
  win (play s ms) = checkWin (board (play s ms)) (n s).
Proof.
  induction ms as [|m rest IH]; intros s Hs; simpl; [assumption|].
  rewrite <- (move_n s m). apply IH. unfold move.
  rewrite applyMove_n. apply applyMove_win.
Qed.

Lemma reached_win_in_sync : forall m ms,
  win (play (emptyState m) ms)
  = checkWin (board (play (emptyState m) ms)) m.
Proof.
  intros m ms. apply (run_win_in_sync ms (emptyState m)).
  simpl. symmetry. apply checkWin_emptyBoard.
Qed.

(** In every state reached from the empty state by moves, [win] is what
    [checkWin] finds on the current board.  So a recorded win names a
    candidate line all of whose cells hold pieces of the recorded winner, and
    while [win] is empty no line of the board is complete. *)
Theorem recorded_win_matches_board : forall (m : nat) (ms : list Move),
  1 <= m ->
  let s := play (emptyState m) ms in
  win s = checkWin (board s) m
  /\ (forall w l, win s = Some (mkWin w l) ->
                  In l (lines m) /\ ownedBy (board s) w l)
  /\ (win s = None ->
      forall l p, In l (lines m) -> ~ ownedBy (board s) p l).
Proof.
  intros m ms Hm s. subst s.
  pose proof (reached_win_in_sync m ms) as Hsync.
  split; [exact Hsync|]. split.
  - intros w l Hw. rewrite Hsync in Hw. apply checkWin_some_owned in Hw. exact Hw.
  - intros Hnone l p Hin. rewrite Hsync in Hnone.
    apply (checkWin_none_unowned _ m); assumption.
Qed.

Lemma recorded_win_matches_board_witness :
  1 <= 3
  /\ In [0; 4; 8] (lines 3)
  /\ ownedBy
       (board (play (emptyState 3)
                    [(0, P1); (1, P2); (4, P1); (2, P2); (8, P1)]))
       P1 [0; 4; 8].
Proof.
  split; [lia|].
  pose proof (recorded_win_matches_board
                3 [(0, P1); (1, P2); (4, P1); (2, P2); (8, P1)]) as H.
  cbv zeta in H. destruct H as (_ & H & _); [lia|].
  apply (H P1 [0; 4; 8]). reflexivity.
Defined.

(** A legal move that ends the game is won by the player who made it, and
    the winning line passes through the cell just played: a move cannot hand
    the win to the opponent. *)
Theorem only_the_mover_wins :
  forall (m : nat) (ms : list Move) (i : nat) (p w : Player) (l : list nat),
  legalRun (emptyState m) (ms ++ [(i, p)]) = true ->
  win (play (emptyState m) (ms ++ [(i, p)])) = Some (mkWin w l) ->
  w = p /\ In i l.
Proof.
  intros m ms i p w l Hrun Hwin.
  apply legalRun_last in Hrun. destruct Hrun as [Hrun Hlegal].
  simpl fst in Hlegal.
  pose proof (reached_win_in_sync m ms) as Hbefore.
  rewrite reached_win_in_sync in Hwin.
  rewrite play_app in Hwin. simpl play in Hwin.
  set (s := play (emptyState m) ms) in *.
  apply legalb_true in Hlegal. destruct Hlegal as (Hnone & Hrange & Hcell).
  assert (Hn : n s = m) by (unfold s; rewrite play_n; reflexivity).
  assert (Hm : 1 <= m) by (rewrite Hn in Hrange; destruct m; simpl in *; lia).
  rewrite Hnone in Hbefore. symmetry in Hbefore.
  apply checkWin_some_owned in Hwin. destruct Hwin as [Hin Hown].
  unfold move in Hown. simpl fst in Hown. simpl snd in Hown.
  destruct (move_shape s i p) as (gone & kept & _ & _ & _ & Hcells).
  assert (Hil : In i l).
  { destruct (in_dec Nat.eq_dec i l) as [Hyes|Hno]; [assumption|].
    exfalso. apply (checkWin_none_unowned (board s) m w l Hm Hbefore Hin).
    intros k Hk. destruct (Hown k Hk) as (pc & Hpc & Hpl).
    rewrite Hcells in Hpc.
    destruct (Nat.eqb_spec k i) as [->|_]; [contradiction|].
    destruct (existsb (Nat.eqb k) gone); [discriminate|].
    exists pc. auto. }
  split; [|exact Hil].
  destruct (Hown i Hil) as (pc & Hpc & Hpl).
  rewrite Hcells, Nat.eqb_refl in Hpc. injection Hpc as <-.
  simpl in Hpl. congruence.
Qed.

Lemma only_the_mover_wins_witness :
  legalRun (emptyState 3) ([(0, P1); (1, P2); (4, P1); (2, P2)] ++ [(8, P1)])
  = true
  /\ win (play (emptyState 3)
               ([(0, P1); (1, P2); (4, P1); (2, P2)] ++ [(8, P1)]))
     = Some (mkWin P1 [0; 4; 8])
  /\ P1 = P1 /\ In 8 [0; 4; 8].
Proof.
  split; [reflexivity|]. split; [reflexivity|].
  apply (only_the_mover_wins 3 [(0, P1); (1, P2); (4, P1); (2, P2)] 8 P1 P1
                             [0; 4; 8]); reflexivity.
Defined.

(** A player wins only with all [n] of their pieces on the board: in a
    reached state with a recorded win the winner's queue holds exactly [n]
    indices, and every cell of the winning line is among them. *)
Theorem winner_has_full_queue :
  forall (m : nat) (ms : list Move) (w : Player) (l : list nat),
  legalRun (emptyState m) ms = true ->
  win (play (emptyState m) ms) = Some (mkWin w l) ->
  length (pget (queues (play (emptyState m) ms)) w) = m
  /\ forall k, In k l -> In k (pget (queues (play (emptyState m) ms)) w).
Proof.
  intros m ms w l Hrun Hwin.
  rewrite reached_win_in_sync in Hwin.
  apply checkWin_some_owned in Hwin. destruct Hwin as [Hin Hown].
  pose proof (run_keeps_consistent ms (emptyState m) Hrun
                                   (emptyState_consistent m)) as [_ Hq].
  pose proof (run_capacity ms (emptyState m) Hrun (emptyState_capacity m) w)
    as Hcap. simpl in Hcap.
  assert (Hincl : forall k, In k l ->
                            In k (pget (queues (play (emptyState m) ms)) w)).
  { intros k Hk. apply Hq. apply Hown. exact Hk. }
  split; [|exact Hincl].
  apply Nat.le_antisymm; [exact Hcap|].
  rewrite <- (lines_have_n_cells m l Hin) at 1.
  apply NoDup_incl_length; [apply (lines_NoDup m); assumption|exact Hincl].
Qed.

Lemma winner_has_full_queue_witness :
  legalRun (emptyState 3) [(0, P1); (1, P2); (4, P1); (2, P2); (8, P1)] = true
  /\ length (pget (queues (play (emptyState 3)
                     [(0, P1); (1, P2); (4, P1); (2, P2); (8, P1)])) P1) = 3.
Proof.
  split; [reflexivity|].
  exact (proj1 (winner_has_full_queue
                  3 [(0, P1); (1, P2); (4, P1); (2, P2); (8, P1)]
                  P1 [0; 4; 8] eq_refl eq_refl)).
Defined.

(** ** Size of the board array *)

Lemma bget_some_in_range : forall (b : Board) i pc,
  bget b i = Some pc -> i < length b.
Proof.
  intros b i pc H. destruct (Nat.lt_ge_cases i (length b)) as [Hlt|Hge];
    [assumption|].
  rewrite bget_past_end in H by assumption. discriminate.
Qed.

Lemma move_keeps_length : forall s m,
  legalb s (fst m) = true -> consistent s ->
  length (board s) = n s * n s ->
  length (board (move s m)) = n s * n s.
Proof.
  intros s [i p] Hlegal [_ Hq] Hlen. simpl in Hlegal.
  apply legalb_true in Hlegal. destruct Hlegal as (_ & Hrange & _).
  unfold move. simpl fst. simpl snd. rewrite applyMove_board.
  unfold removeOldestIfNeeded.
  destruct (maxPieces s <=? length (pget (queues s) p)).
  - destruct (pget (queues s) p) as [|idx rest] eqn:Eq; simpl snd.
    + rewrite bset_length_in_range; lia.
    + assert (Hidx : idx < length (board s)).
      { assert (Hin : In idx (pget (queues s) p)) by (rewrite Eq; left; auto).
        apply Hq in Hin. destruct Hin as (pc & Hpc & _).
        apply (bget_some_in_range _ _ pc Hpc). }
      rewrite bset_length_in_range; rewrite bset_length_in_range; lia.
  - simpl snd. rewrite bset_length_in_range; lia.
Qed.

Lemma run_keeps_length : forall ms s,
  legalRun s ms = true -> consistent s ->
  length (board s) = n s * n s ->
  length (board (play s ms)) = n s * n s.
Proof.
  induction ms as [|m rest IH]; intros s Hrun Hs Hlen; [assumption|].
  simpl in Hrun. apply Bool.andb_true_iff in Hrun.
  destruct Hrun as [Hlegal Hrun]. simpl play.
  rewrite <- (move_n s m). apply IH.
  - assumption.
  - apply move_keeps_consistent; assumption.
  - rewrite move_n. apply move_keeps_length; assumption.
Qed.

(** Legal play never resizes the board array: after every run of legal
    moves from the empty state of size [m] the array has exactly [m * m]
    cells and the size field is still [m]. *)
Theorem board_keeps_its_size : forall (m : nat) (ms : list Move),
  legalRun (emptyState m) ms = true ->
  length (board (play (emptyState m) ms)) = m * m
  /\ n (play (emptyState m) ms) = m.
Proof.
  intros m ms Hrun. split; [|apply play_n].
  apply (run_keeps_length ms (emptyState m) Hrun (emptyState_consistent m)).
  simpl. unfold emptyBoard. apply repeat_length.
Qed.

Lemma board_keeps_its_size_witness :
  legalRun (emptyState 3) sampleRun = true
  /\ length (board (play (emptyState 3) sampleRun)) = 3 * 3.
Proof.
  split; [reflexivity|].
  exact (proj1 (board_keeps_its_size 3 sampleRun eq_refl)).
Defined.

(** ** Range of the labels *)

Lemma move_keeps_labels : forall s m,
  labelsInRange s -> labelsInRange (move s m).
Proof.
  intros s [i p] [Hctr Hcells]. unfold move. simpl fst. simpl snd.
  split.
  - intros q. rewrite applyMove_nextLabel, applyMove_n.
    specialize (Hctr p) as Hp.
    destruct (player_cases p q) as [->| ->].
    + rewrite pget_pset_same.
      destruct (Nat.leb_spec (n s) (pget (nextLabel s) p)); lia.
    + rewrite pget_pset_other. apply Hctr.
  - intros j pc Hpc. rewrite applyMove_n.
    destruct (move_shape s i p) as (gone & kept & _ & _ & _ & Hshape).
    rewrite Hshape in Hpc. destruct (j =? i).
    + injection Hpc as <-. simpl. apply Hctr.
    + destruct (existsb (Nat.eqb j) gone); [discriminate|].
      apply (Hcells j). exact Hpc.
Qed.

Lemma run_keeps_labels : forall ms s,
  labelsInRange s -> labelsInRange (play s ms).
Proof.
  induction ms as [|m rest IH]; intros s Hs; [assumption|].
  simpl. apply IH. apply move_keeps_labels. assumption.
Qed.

(** On a board of size [m >= 1], after any moves from the empty state,
    every piece on the board carries a label between 1 and [m], and so does
    the next label of each player. *)
Theorem labels_stay_in_range : forall (m : nat) (ms : list Move),
  1 <= m ->
  let s := play (emptyState m) ms in
  (forall i pc, bget (board s) i = Some pc -> 1 <= label pc <= m)
  /\ (forall p, 1 <= pget (nextLabel s) p <= m).
Proof.
  intros m ms Hm s.
  assert (H : labelsInRange s).
  { apply run_keeps_labels. split.
    - intros []; simpl; lia.
    - intros i pc Hpc. simpl in Hpc. rewrite bget_emptyBoard in Hpc.
      discriminate. }
  destruct H as [Hctr Hcells]. unfold s in *. rewrite play_n in *.
  simpl n in *. split; assumption.
Qed.

Lemma labels_stay_in_range_witness :
  1 <= 3 /\ 1 <= pget (nextLabel (play (emptyState 3) sampleRun)) P1 <= 3.
Proof.
  split; [lia|].
  pose proof (labels_stay_in_range 3 sampleRun) as H. cbv zeta in H.
  destruct H as (_ & H); [lia|]. apply (H P1).
Defined.

(** ** The queue is the last [n] cells played *)

Lemma lastN_short : forall (l : list nat) k, length l <= k -> lastN k l = l.
Proof.
  intros l k H. unfold lastN. replace (length l - k) with 0 by lia. reflexivity.
Qed.

Lemma lastN_length : forall (l : list nat) k, length (lastN k l) <= k.
Proof. intros l k. unfold lastN. rewrite length_skipn. lia. Qed.

Lemma lastN_app : forall (a b : list nat) k,
  lastN k (lastN k a ++ b) = lastN k (a ++ b).
Proof.
  intros a b k. destruct (Nat.le_gt_cases (length a) k) as [Hle|Hgt].
  - rewrite (lastN_short a k) by assumption. reflexivity.
  - unfold lastN. rewrite !length_app, length_skipn.
    replace (length a - (length a - k) + length b - k) with (length b) by lia.
    replace (length a + length b - k) with (length b + (length a - k)) by lia.
    rewrite <- skipn_skipn. f_equal.
    rewrite skipn_app.
    replace (length a - k - length a) with 0 by lia. reflexivity.
Qed.

Lemma removeOldest_is_lastN : forall e p b q i,
  1 <= n e -> length (pget q p) <= n e ->
  fst (removeOldestIfNeeded e p b q) ++ [i] = lastN (n e) (pget q p ++ [i]).
Proof.
  intros e p b q i Hn Hcap. unfold removeOldestIfNeeded, maxPieces, lastN.
  rewrite length_app. simpl length.
  destruct (Nat.leb_spec (n e) (length (pget q p))) as [Hfull|Hroom].
  - destruct (pget q p) as [|idx rest]; [simpl in Hfull; lia|].
    change (length (idx :: rest)) with (S (length rest)) in *. cbn [fst].
    replace (S (length rest) + 1 - n e) with 1 by lia. reflexivity.
  - replace (length (pget q p) + 1 - n e) with 0 by lia. reflexivity.
Qed.

Lemma run_queue_lastN : forall p ms s,
  legalRun s ms = true ->
  (forall q, length (pget (queues s) q) <= n s) ->
  pget (queues (play s ms)) p
  = lastN (n s) (pget (queues s) p ++ indicesBy p ms).
Proof.
  intros p ms. induction ms as [|m rest IH]; intros s Hrun Hcap.
  - simpl. unfold indicesBy. simpl. rewrite app_nil_r.
    symmetry. apply lastN_short. apply Hcap.
  - simpl in Hrun. apply Bool.andb_true_iff in Hrun.
    destruct Hrun as [Hlegal Hrun]. simpl play.
    assert (Hcap' := move_keeps_capacity s m Hlegal Hcap).
    rewrite (IH (move s m) Hrun Hcap'). rewrite move_n.
    apply legalb_true in Hlegal. destruct Hlegal as (_ & Hrange & _).
    assert (Hn : 1 <= n s) by (destruct (n s); simpl in Hrange; lia).
    destruct m as [i q]. unfold move, indicesBy. simpl fst. simpl snd.
    rewrite applyMove_queues. simpl filter.
    destruct (player_cases q p) as [->| ->].
    + rewrite player_eqb_refl, pget_pset_same. simpl map.
      rewrite (removeOldest_is_lastN s q (board s) (queues s) i Hn (Hcap q)).
      rewrite lastN_app, <- app_assoc. reflexivity.
    + replace (player_eqb q (other q)) with false by (destruct q; reflexivity).
      rewrite pget_pset_other. reflexivity.
Qed.

(** The queue of a player is a first-in first-out window: after a run of
    legal moves from the empty state of size [m] it lists, oldest first, the
    last [m] cells that the player played (all of them while there are fewer
    than [m]). *)
Theorem queue_is_last_n_played : forall (m : nat) (ms : list Move) (p : Player),
  legalRun (emptyState m) ms = true ->
  pget (queues (play (emptyState m) ms)) p = lastN m (indicesBy p ms).
Proof.
  intros m ms p Hrun.
  rewrite (run_queue_lastN p ms (emptyState m) Hrun (emptyState_capacity m)).
  simpl. destruct p; reflexivity.
Qed.

Lemma queue_is_last_n_played_witness :
  legalRun (emptyState 3) sampleRun = true
  /\ pget (queues (play (emptyState 3) sampleRun)) P1
     = lastN 3 (indicesBy P1 sampleRun).
Proof.
  split; [reflexivity|].
  exact (queue_is_last_n_played 3 sampleRun P1 eq_refl).
Defined.

(** ** Pieces on the board and pieces left *)

Lemma ownedCells_In : forall (b : Board) p i,
  In i (ownedCells b p) <-> exists pc, bget b i = Some pc /\ player pc = p.
Proof.
  intros b p i. unfold ownedCells. rewrite filter_In, in_seq. split.
  - intros [_ H]. destruct (bget b i) as [pc|]; [|discriminate].
    exists pc. split; [reflexivity|]. apply player_eqb_eq. exact H.
  - intros (pc & Hpc & Hp). split.
    + pose proof (bget_some_in_range b i pc Hpc). lia.
    + rewrite Hpc. apply player_eqb_eq. exact Hp.
Qed.

(** In every state reached by legal moves, the number of cells that hold a
    piece of a player is the length of that player's queue, hence at most
    the board size [m]; the count of pieces left shown for the player is [m]
    minus that number and is never clamped. *)
Theorem pieces_on_board_match_queue :
  forall (m : nat) (ms : list Move) (p : Player),
  legalRun (emptyState m) ms = true ->
  let s := play (emptyState m) ms in
  length (ownedCells (board s) p) = length (pget (queues s) p)
  /\ length (ownedCells (board s) p) <= m
  /\ remainFor s p
     = (Z.of_nat m - Z.of_nat (length (ownedCells (board s) p)))%Z.
Proof.
  intros m ms p Hrun s.
  pose proof (run_keeps_consistent ms (emptyState m) Hrun
                                   (emptyState_consistent m)) as [Hnd Hq].
  pose proof (run_capacity ms (emptyState m) Hrun (emptyState_capacity m) p)
    as Hcap. simpl n in Hcap. fold s in Hnd, Hq, Hcap.
  assert (Hlen : length (ownedCells (board s) p) = length (pget (queues s) p)).
  { apply Permutation_length. apply NoDup_Permutation.
    - unfold ownedCells. apply NoDup_filter. apply seq_NoDup.
    - apply Hnd.
    - intros i. rewrite ownedCells_In. symmetry. apply Hq. }
  split; [exact Hlen|]. split; [lia|].
  unfold remainFor, maxPieces. unfold s at 1. rewrite play_n. simpl n.
  rewrite Hlen. lia.
Qed.

Lemma pieces_on_board_match_queue_witness :
  legalRun (emptyState 3) sampleRun = true
  /\ length (ownedCells (board (play (emptyState 3) sampleRun)) P2)
     = length (pget (queues (play (emptyState 3) sampleRun)) P2).
Proof.
  split; [reflexivity|].
  pose proof (pieces_on_board_match_queue 3 sampleRun P2 eq_refl) as H.
  cbv zeta in H. exact (proj1 H).
Defined.

(** ** There is always a free cell *)

Lemma some_index_left : forall k (l : list nat),
  length l < k -> exists i, i < k /\ ~ In i l.
Proof.
  intros k l Hlen.
  destruct (existsb (fun i => negb (existsb (Nat.eqb i) l)) (seq 0 k)) eqn:E.
  - apply existsb_exists in E. destruct E as (i & Hi & Hneg).
    apply in_seq in Hi. exists i. split; [lia|].
    intros Hin. apply Bool.negb_true_iff in Hneg.
    apply Bool.not_true_iff_false in Hneg. apply Hneg.
    apply existsb_exists. exists i. split; [assumption|apply Nat.eqb_refl].
  - exfalso.
    assert (Hincl : incl (seq 0 k) l).
    { intros i Hi. destruct (in_dec Nat.eq_dec i l) as [Hin|Hout]; [assumption|].
      exfalso. apply Bool.not_true_iff_false in E. apply E.
      apply existsb_exists. exists i. split; [assumption|].
      apply Bool.negb_true_iff. apply Bool.not_true_iff_false.
      intros Hex. apply existsb_exists in Hex. destruct Hex as (x & Hx & Heq).
      apply Nat.eqb_eq in Heq. subst x. contradiction. }
    apply NoDup_incl_length in Hincl; [|apply seq_NoDup].
    rewrite length_seq in Hincl. lia.
Qed.

(** On a board of size [m >= 3] the game cannot get stuck on a full board:
    in every state reached by legal moves in which nobody has won yet, some
    cell is a legal target for the next move. *)
Theorem empty_cell_always_exists : forall (m : nat) (ms : list Move),
  3 <= m ->
  legalRun (emptyState m) ms = true ->
  win (play (emptyState m) ms) = None ->
  exists i, legalb (play (emptyState m) ms) i = true.
Proof.
  intros m ms Hm Hrun Hwin.
  set (s := play (emptyState m) ms) in *.
  pose proof (run_keeps_consistent ms (emptyState m) Hrun
                                   (emptyState_consistent m)) as [_ Hq].
  pose proof (run_capacity ms (emptyState m) Hrun (emptyState_capacity m))
    as Hcap. simpl n in Hcap. fold s in Hq, Hcap.
  assert (Hn : n s = m) by (unfold s; apply play_n).
  destruct (some_index_left (m * m)
              (pget (queues s) P1 ++ pget (queues s) P2)) as (i & Hi & Hfree).
  { rewrite length_app. pose proof (Hcap P1). pose proof (Hcap P2). nia. }
  exists i. apply legalb_true. rewrite Hn. repeat split; try assumption.
  destruct (bget (board s) i) as [pc|] eqn:E; [|reflexivity].
  exfalso. apply Hfree. apply in_or_app.
  assert (Hin : In i (pget (queues s) (player pc))).
  { apply Hq. exists pc. auto. }
  destruct (player pc); auto.
Qed.

Lemma empty_cell_always_exists_witness :
  3 <= 3
  /\ legalRun (emptyState 3) sampleRun = true
  /\ win (play (emptyState 3) sampleRun) = None
  /\ exists i, legalb (play (emptyState 3) sampleRun) i = true.
Proof.
  split; [lia|]. split; [reflexivity|]. split; [reflexivity|].
  apply (empty_cell_always_exists 3 sampleRun); [lia|reflexivity|reflexivity].
Defined.

(** ** Clicks and broadcasts *)

(** A click of the guest never changes the guest's own state.  It sends at
    most one message, the attempt for the clicked cell, and it sends it
    exactly when there is no winner, it is the guest's turn, the cell reads
    as empty and a connection object exists. *)
Theorem guest_click_keeps_state :
  forall (e : GameState) (iAm : Player) (connRef : option Conn) (i : nat)
         (store : GameState),
  let r := onCanvasClick e Online (Some Guest) iAm connRef i store in
  fst r = store
  /\ (snd r = [] \/ snd r = [MsgAttempt (IdxNum i)])
  /\ (snd r = [MsgAttempt (IdxNum i)] <->
      win e = None /\ turn e = iAm /\ bget (board e) i = None
      /\ connRef <> None).
Proof.
  intros e iAm connRef i store r. subst r. unfold onCanvasClick.
  destruct (win e) as [w|]; simpl.
  { repeat split; auto; try discriminate. intros (H & _). discriminate. }
  destruct (player_eqb (turn e) iAm) eqn:Et; simpl.
  - apply player_eqb_eq in Et.
    destruct (bget (board e) i) as [pc|]; simpl.
    { repeat split; auto; try discriminate. intros (_ & _ & H & _). discriminate. }
    destruct connRef as [conn|]; simpl.
    + repeat split; auto. discriminate.
    + repeat split; auto; try discriminate. intros (_ & _ & _ & H). contradiction.
  - repeat split; auto; try discriminate. intros (_ & H & _).
    apply player_eqb_eq in H. congruence.
Qed.

(** When the host plays a legal cell in its turn over an open connection,
    its own state becomes the state after the move, but the state message it
    sends holds the snapshot of the render in which the click ran, that is
    the state before the move: a guest of the same board size that hydrates
    it sees the board without the piece just placed. *)
Theorem host_click_sends_state_before_move :
  forall (s g : GameState) (i : nat) (conn : Conn),
  legalb s i = true -> turn s = P1 -> open conn = true -> n g = n s ->
  let r := onCanvasClick s Online (Some Host) P1 (Some conn) i s in
  fst r = applyMove s i P1 s
  /\ snd r = [MsgState (Some s)]
  /\ rerender g (guestOnData (MsgState (Some s)) g) = s
  /\ bget (board (fst r)) i = Some (mkPiece P1 (pget (nextLabel s) P1))
  /\ bget (board (rerender g (guestOnData (MsgState (Some s)) g))) i = None.
Proof.
  intros s g i conn Hlegal Hturn Hopen Hn r. subst r.
  apply legalb_true in Hlegal. destruct Hlegal as (Hwin & _ & Hcell).
  assert (Hguest : rerender g (guestOnData (MsgState (Some s)) g) = s).
  { unfold guestOnData. rewrite hydrate_replaces. unfold rerender.
    rewrite Hn, Nat.eqb_refl. reflexivity. }
  rewrite Hguest.
  unfold onCanvasClick. rewrite Hwin, Hturn, Hcell. simpl.
  rewrite Hopen, snapshot_is_render.
  repeat split; try assumption.
  rewrite applyMove_board. apply bget_bset_same.
Qed.

Lemma host_click_sends_state_before_move_witness :
  legalb (emptyState 3) 4 = true
  /\ snd (onCanvasClick (emptyState 3) Online (Some Host) P1
                        (Some (mkConn true)) 4 (emptyState 3))
     = [MsgState (Some (emptyState 3))].
Proof.
  split; [reflexivity|].
  pose proof (host_click_sends_state_before_move
                (emptyState 3) (emptyState 3) 4 (mkConn true)
                eq_refl eq_refl eq_refl eq_refl) as H.
  cbv zeta in H. exact (proj1 (proj2 H)).
Defined.

(** A reset gives a fresh game of the current size: the hooks become the
    empty state, in which queues and board agree and every cell of the board
    is a legal target.  Only a host in online mode sends anything, and what
    it sends over an open connection is the snapshot of the render in which
    the reset ran, the state before the reset. *)
Theorem reset_gives_fresh_game :
  forall (s : GameState) (mode : Mode) (role : option Role)
         (connRef : option Conn),
  let r := resetGame s mode role connRef s in
  fst r = emptyState (n s)
  /\ consistent (fst r)
  /\ (forall i, i < n s * n s -> legalb (fst r) i = true)
  /\ (snd r = [] \/ snd r = [MsgState (Some s)])
  /\ (snd r = [MsgState (Some s)] <->
      mode = Online /\ role = Some Host
      /\ exists conn, connRef = Some conn /\ open conn = true).
Proof.
  intros s mode role connRef r. subst r. unfold resetGame. simpl fst.
  assert (Hfst : setWin None (setTurn P1 (setNextLabel (mkPer 1 1)
                   (setQueues (mkPer [] [])
                      (setBoard (emptyBoard (n s * n s)) s))))
                 = emptyState (n s)) by reflexivity.
  rewrite Hfst. split; [reflexivity|].
  split; [apply emptyState_consistent|]. split.
  { intros i Hi. apply legalb_true. simpl. rewrite bget_emptyBoard. auto. }
  simpl snd. unfold broadcastState. rewrite snapshot_is_render.
  destruct mode; simpl.
  { split; [auto|]. split; [discriminate|]. intros (H & _). discriminate. }
  destruct role as [[|]|]; simpl;
    try (split; [auto|]; split; [discriminate|];
         intros (_ & H & _); discriminate).
  destruct connRef as [conn|].
  - destruct (open conn) eqn:Eo.
    + split; [auto|]. split; [|reflexivity]. intros _. repeat split.
      exists conn. auto.
    + split; [auto|]. split; [discriminate|].
      intros (_ & _ & c & [= <-] & Hc). congruence.
  - split; [auto|]. split; [discriminate|].
    intros (_ & _ & c & Hc & _). discriminate.
Qed.

(** The host answers a sync request with one state message over an open
    connection and changes nothing of its own.  The message holds the
    snapshot of the render in which the handler was registered; a guest of
    the same board size that hydrates it holds exactly that state, a guest
    of another size ends with the reset state of the new size. *)
Theorem sync_request_is_answered :
  forall (e store g : GameState) (conn : Conn),
  open conn = true ->
  let r := hostOnData e (Some conn) MsgSyncRequest store in
  fst r = store
  /\ snd r = [MsgState (Some e)]
  /\ rerender g (guestOnData (MsgState (Some e)) g)
     = (if n e =? n g then e else resizeEffect e).
Proof.
  intros e store g conn Hopen r. subst r.
  unfold hostOnData, broadcastState, guestOnData, rerender.
  rewrite Hopen, snapshot_is_render, hydrate_replaces.
  repeat split.
Qed.

Lemma sync_request_is_answered_witness :
  open (mkConn true) = true
  /\ snd (hostOnData afterFirstMove (Some (mkConn true)) MsgSyncRequest
                     afterFirstMove)
     = [MsgState (Some afterFirstMove)].
Proof.
  split; [reflexivity|].
  pose proof (sync_request_is_answered afterFirstMove afterFirstMove mountState
                (mkConn true) eq_refl) as H.
  cbv zeta in H. exact (proj1 (proj2 H)).
Defined.

(** ** Change of board size *)

(** Choosing a board size other than the current one starts a new game, but
    the board it allocates has 9 cells for size 3 and 16 cells for every
    other size: the new state is the empty state of the chosen size exactly
    when that size is 3 or 4.  Choosing the current size changes nothing. *)
Theorem size_change_allocates_9_or_16 :
  forall (mode : Mode) (role : option Role) (iAm : Player)
         (connRef : option Conn) (s : GameState) (m : nat),
  let s' := step mode role iAm connRef s (SizeClick m) in
  (m = n s -> s' = s)
  /\ (m <> n s ->
      n s' = m
      /\ length (board s') = (if m =? 3 then 9 else 16)
      /\ turn s' = P1 /\ win s' = None
      /\ queues s' = mkPer [] [] /\ nextLabel s' = mkPer 1 1
      /\ (s' = emptyState m <-> m = 3 \/ m = 4)).
Proof.
  intros mode role iAm connRef s m s'. subst s'. simpl. unfold rerender.
  simpl n. split.
  - intros ->. rewrite Nat.eqb_refl. destruct s; reflexivity.
  - intros Hne. destruct (Nat.eqb_spec m (n s)) as [|_]; [contradiction|].
    unfold resizeEffect. simpl n.
    destruct (Nat.eqb_spec m 3) as [->|H3].
    + simpl. repeat split; auto.
    + simpl. repeat split; auto.
      * intros Heq. right.
        assert (Hlen : length (board (emptyState m)) = 16)
          by (rewrite <- Heq; reflexivity).
        simpl in Hlen. unfold emptyBoard in Hlen. rewrite repeat_length in Hlen.
        assert (m = 4) by nia. assumption.
      * intros [->| ->]; [contradiction|reflexivity].
Qed.

(** ** Room identifier *)

Lemma hexChars_NoDup : NoDup hexChars.
Proof.
  unfold hexChars.
  repeat (constructor; [simpl; intuition discriminate|]). constructor.
Qed.

Lemma hexDigit_injective : forall d d',
  d < 16 -> d' < 16 -> hexDigit d = hexDigit d' -> d = d'.
Proof.
  intros d d' Hd Hd' H.
  apply (proj1 (NoDup_nth hexChars "0"%char) hexChars_NoDup); assumption.
Qed.

Lemma hexDigit_in : forall d, d < 16 -> In (hexDigit d) hexChars.
Proof. intros d Hd. apply (nth_In hexChars "0"%char). exact Hd. Qed.

(** A byte is written as its two hexadecimal digits, the high one first. *)
Lemma hex_of_byte : forall b : byte,
  padStart 2 "0"%char (toString16 (Byte.to_nat b))
  = [hexDigit (Byte.to_nat b / 16); hexDigit (Byte.to_nat b mod 16)].
Proof. intros b. destruct b; reflexivity. Qed.

Lemma hexOfBytes_cons : forall b rest,
  hexOfBytes (b :: rest)
  = hexDigit (Byte.to_nat b / 16) :: hexDigit (Byte.to_nat b mod 16)
    :: hexOfBytes rest.
Proof.
  intros b rest. unfold hexOfBytes. simpl map. simpl concat.
  rewrite hex_of_byte. reflexivity.
Qed.

Lemma byte_digits_bounds : forall b : byte,
  Byte.to_nat b / 16 < 16 /\ Byte.to_nat b mod 16 < 16.
Proof.
  intros b. pose proof (Byte.to_nat_bounded b). split.
  - apply Nat.Div0.div_lt_upper_bound. lia.
  - apply Nat.mod_upper_bound. lia.
Qed.

Lemma byte_of_digits : forall a b : byte,
  Byte.to_nat a / 16 = Byte.to_nat b / 16 ->
  Byte.to_nat a mod 16 = Byte.to_nat b mod 16 -> a = b.
Proof.
  intros a b Hhi Hlo.
  assert (H : Byte.to_nat a = Byte.to_nat b).
  { rewrite (Nat.div_mod_eq (Byte.to_nat a) 16),
            (Nat.div_mod_eq (Byte.to_nat b) 16), Hhi, Hlo. reflexivity. }
  pose proof (Byte.of_to_nat a) as Ha. rewrite H, Byte.of_to_nat in Ha.
  congruence.
Qed.

Lemma hexOfBytes_length : forall bytes,
  length (hexOfBytes bytes) = 2 * length bytes.
Proof.
  induction bytes as [|b rest IH]; [reflexivity|].
  rewrite hexOfBytes_cons. simpl length. rewrite IH. lia.
Qed.

Lemma hexOfBytes_injective : forall a b, hexOfBytes a = hexOfBytes b -> a = b.
Proof.
  induction a as [|x a IH]; intros [|y b] H.
  - reflexivity.
  - rewrite hexOfBytes_cons in H. discriminate.
  - rewrite hexOfBytes_cons in H. discriminate.
  - rewrite !hexOfBytes_cons in H. injection H as Hhi Hlo Hrest.
    destruct (byte_digits_bounds x) as [Hx1 Hx2].
    destruct (byte_digits_bounds y) as [Hy1 Hy2].
    apply hexDigit_injective in Hhi; [|assumption|assumption].
    apply hexDigit_injective in Hlo; [|assumption|assumption].
    f_equal; [apply byte_of_digits; assumption|apply IH; assumption].
Qed.

Lemma hexOfBytes_firstn : forall k bytes,
  slice0 (2 * k) (hexOfBytes bytes) = hexOfBytes (firstn k bytes).
Proof.
  unfold slice0. induction k as [|k IH]; intros bytes.
  - reflexivity.
  - destruct bytes as [|b rest]; [reflexivity|].
    replace (2 * S k) with (S (S (2 * k))) by lia.
    rewrite firstn_cons, !hexOfBytes_cons. simpl firstn.
    rewrite IH. reflexivity.
Qed.

(** [hashRoom] writes the digest in lower-case hexadecimal, two characters
    per byte: the result is twice as long as the digest, uses only the
    characters 0-9 and a-f, and two digests are written the same way only
    if they are the same bytes. *)
Theorem hashRoom_is_hex_of_digest :
  forall (encode : str -> list byte) (sha256 : list byte -> list byte)
         (name pass : str),
  length (hashRoom encode sha256 name pass)
  = 2 * length (digestOf encode sha256 name pass)
  /\ (forall c, In c (hashRoom encode sha256 name pass) -> In c hexChars)
  /\ (forall name' pass',
        hashRoom encode sha256 name pass = hashRoom encode sha256 name' pass'
        <-> digestOf encode sha256 name pass
            = digestOf encode sha256 name' pass').
Proof.
  intros encode sha256 name pass. unfold hashRoom.
  split; [apply hexOfBytes_length|]. split.
  - generalize (digestOf encode sha256 name pass) as bytes.
    induction bytes as [|b rest IH]; intros c Hc; [destruct Hc|].
    rewrite hexOfBytes_cons in Hc.
    destruct (byte_digits_bounds b) as [Hhi Hlo].
    destruct Hc as [<-|[<-|Hc]]; [apply hexDigit_in|apply hexDigit_in|apply IH];
      assumption.
  - intros name' pass'. split.
    + apply hexOfBytes_injective.
    + intros ->. reflexivity.
Qed.

(** The room identifier is the text room-, twelve hexadecimal characters
    and the text -host.  The twelve characters are the first six bytes of
    the digest of the trimmed name and passphrase, so two pairs get the same
    room exactly when their digests agree on the first six bytes; with a
    digest of six bytes or more the identifier has 22 characters. *)
Theorem room_id_uses_six_digest_bytes :
  forall (encode : str -> list byte) (sha256 : list byte -> list byte)
         (trim : str -> str) (name pass : str),
  let digest := digestOf encode sha256 (trim name) (trim pass) in
  prepareRoomId encode sha256 trim name pass
  = (["r"; "o"; "o"; "m"; "-"]%char
     ++ hexOfBytes (firstn 6 digest) ++ ["-"; "h"; "o"; "s"; "t"]%char)
  /\ (6 <= length digest ->
      length (prepareRoomId encode sha256 trim name pass) = 22)
  /\ (forall name' pass',
        prepareRoomId encode sha256 trim name pass
        = prepareRoomId encode sha256 trim name' pass'
        <-> firstn 6 digest
            = firstn 6 (digestOf encode sha256 (trim name') (trim pass'))).
Proof.
  intros encode sha256 trim name pass digest. subst digest.
  assert (Hshape : forall a b,
    prepareRoomId encode sha256 trim a b
    = (["r"; "o"; "o"; "m"; "-"]%char
       ++ hexOfBytes (firstn 6 (digestOf encode sha256 (trim a) (trim b)))
       ++ ["-"; "h"; "o"; "s"; "t"]%char)).
  { intros a b. unfold prepareRoomId, hashRoom.
    rewrite (hexOfBytes_firstn 6). reflexivity. }
  split; [apply Hshape|]. split.
  - intros Hlen. rewrite Hshape, !length_app, hexOfBytes_length, length_firstn.
    simpl length. lia.
  - intros name' pass'. rewrite !Hshape. split.
    + intros H. apply app_inv_head in H. apply app_inv_tail in H.
      apply hexOfBytes_injective. exact H.
    + intros ->. reflexivity.
Qed.

(** With a digest function that returns 32 bytes the identifier of the pair
    (ab, c) has 22 characters. *)
Example room_id_sample :
  length (prepareRoomId (map byte_of_ascii) sampleDigest (fun s => s)
                        ["a"; "b"]%char ["c"]%char) = 22.
Proof. reflexivity. Qed.

(** ** Labels of the pieces on the board *)

Lemma mod_window : forall m a j1 j2,
  j1 < j2 -> j2 - j1 < m -> (a + j1) mod m <> (a + j2) mod m.
Proof.
  intros m a j1 j2 Hlt Hwin Heq.
  pose proof (Nat.div_mod_eq (a + j1) m) as H1.
  pose proof (Nat.div_mod_eq (a + j2) m) as H2.
  rewrite Heq in H1.
  destruct (Nat.le_gt_cases ((a + j2) / m) ((a + j1) / m)) as [Hle|Hgt]; nia.
Qed.

Lemma move_keeps_label_order : forall s i p q c,
  legalb s i = true -> consistent s ->
  labelsFollowQueue s q c ->
  labelsFollowQueue (applyMove s i p s) q
                    (if player_eqb p q then c + 1 else c).
Proof.
  intros s i p q c Hlegal Hs (Hlen & Hctr & Hlabels).
  apply legalb_true in Hlegal. destruct Hlegal as (_ & Hrange & Hcell).
  assert (Hn : 1 <= n s) by (destruct (n s); simpl in Hrange; lia).
  pose proof (consistent_empty_cell s i) as Hfree.
  pose proof (consistent_one_owner s) as Hone.
  destruct (move_shape s i p) as (gone & kept & Hsplit & Hgone & Hqs & Hcells).
  assert (Hnd : NoDup (gone ++ kept)).
  { rewrite <- Hsplit. apply (proj1 Hs). }
  unfold labelsFollowQueue. rewrite applyMove_n, applyMove_nextLabel, Hqs.
  destruct (player_cases p q) as [->| ->].
  - rewrite player_eqb_refl, !pget_pset_same, length_app. simpl length.
    assert (Hq : length (pget (queues s) p) = length gone + length kept)
      by (rewrite Hsplit; apply length_app).
    split; [lia|]. split.
    { rewrite Hctr. apply next_label_mod. assumption. }
    intros j x Hx.
    destruct (Nat.lt_ge_cases j (length kept)) as [Hj|Hj].
    + rewrite nth_error_app1 in Hx by assumption.
      assert (Hold : nth_error (pget (queues s) p) (length gone + j) = Some x).
      { rewrite Hsplit, nth_error_app2 by lia.
        replace (length gone + j - length gone) with j by lia. exact Hx. }
      destruct (Hlabels _ _ Hold) as (pc & Hpc & Hl).
      exists pc. split.
      * rewrite Hcells.
        assert (Hxk : In x kept) by (eapply nth_error_In; exact Hx).
        destruct (Nat.eqb_spec x i) as [->|_].
        { rewrite Hcell in Hpc. discriminate. }
        destruct (existsb (Nat.eqb x) gone) eqn:Eg; [|exact Hpc].
        exfalso. destruct Hgone as [->|[idx ->]]; [discriminate|].
        simpl in Eg. rewrite Bool.orb_false_r in Eg. apply Nat.eqb_eq in Eg.
        subst idx. simpl in Hnd. inversion Hnd; subst. contradiction.
      * rewrite Hl. f_equal. f_equal. lia.
    + rewrite nth_error_app2 in Hx by assumption.
      destruct (j - length kept) as [|d] eqn:Ed;
        [|destruct d; discriminate].
      simpl in Hx. injection Hx as <-.
      exists (mkPiece p (pget (nextLabel s) p)). split.
      * rewrite Hcells, Nat.eqb_refl. reflexivity.
      * simpl label. rewrite Hctr. f_equal. f_equal. lia.
  - replace (player_eqb p (other p)) with false by (destruct p; reflexivity).
    rewrite !pget_pset_other. split; [assumption|]. split; [assumption|].
    intros j x Hx. destruct (Hlabels _ _ Hx) as (pc & Hpc & Hl).
    exists pc. split; [|exact Hl].
    assert (Hxq : In x (pget (queues s) (other p)))
      by (eapply nth_error_In; exact Hx).
    rewrite Hcells.
    destruct (Nat.eqb_spec x i) as [->|_].
    { rewrite Hcell in Hpc. discriminate. }
    destruct (existsb (Nat.eqb x) gone) eqn:Eg; [|exact Hpc].
    exfalso. destruct Hgone as [->|[idx ->]]; [discriminate|].
    simpl in Eg. rewrite Bool.orb_false_r in Eg. apply Nat.eqb_eq in Eg.
    subst idx.
    apply (Hone x p Hs); [|exact Hxq].
    rewrite Hsplit. left. reflexivity.
Qed.

Lemma run_keeps_label_order : forall q ms s c,
  legalRun s ms = true -> consistent s ->
  labelsFollowQueue s q c ->
  exists c', labelsFollowQueue (play s ms) q c'.
Proof.
  intros q ms. induction ms as [|m rest IH]; intros s c Hrun Hs Hlab.
  - exists c. exact Hlab.
  - simpl in Hrun. apply Bool.andb_true_iff in Hrun.
    destruct Hrun as [Hlegal Hrun]. simpl play.
    apply (IH (move s m) (if player_eqb (snd m) q then c + 1 else c)).
    + exact Hrun.
    + apply move_keeps_consistent; assumption.
    + apply move_keeps_label_order; assumption.
Qed.

(** Two different pieces of the same player never show the same number:
    in every state reached by legal moves from the empty state, pieces of one
    owner on different cells carry different labels. *)
Theorem live_pieces_have_distinct_labels :
  forall (m : nat) (ms : list Move) (i1 i2 : nat) (pc1 pc2 : Piece),
  legalRun (emptyState m) ms = true ->
  bget (board (play (emptyState m) ms)) i1 = Some pc1 ->
  bget (board (play (emptyState m) ms)) i2 = Some pc2 ->
  player pc1 = player pc2 ->
  i1 <> i2 ->
  label pc1 <> label pc2.
Proof.
  intros m ms i1 i2 pc1 pc2 Hrun H1 H2 Hown Hne.
  set (s := play (emptyState m) ms) in *.
  set (p := player pc1) in *.
  pose proof (run_keeps_consistent ms (emptyState m) Hrun
                                   (emptyState_consistent m)) as Hs.
  pose proof (run_capacity ms (emptyState m) Hrun (emptyState_capacity m) p)
    as Hcap. simpl n in Hcap. fold s in Hs, Hcap.
  assert (Hn : n s = m) by (unfold s; apply play_n).
  destruct (run_keeps_label_order p ms (emptyState m) 0 Hrun
              (emptyState_consistent m)) as (c & Hlen & _ & Hlabels).
  { split; [destruct p; simpl; lia|]. split.
    - simpl. rewrite Nat.Div0.mod_0_l. destruct p; reflexivity.
    - intros j i Hj. destruct p; destruct j; discriminate. }
  fold s in Hlen, Hlabels. rewrite Hn in Hlabels.
  assert (Hin1 : In i1 (pget (queues s) p)).
  { apply (proj2 Hs). exists pc1. auto. }
  assert (Hin2 : In i2 (pget (queues s) p)).
  { apply (proj2 Hs). exists pc2. auto. }
  apply In_nth_error in Hin1. destruct Hin1 as (j1 & Hj1).
  apply In_nth_error in Hin2. destruct Hin2 as (j2 & Hj2).
  destruct (Hlabels _ _ Hj1) as (pc1' & Hpc1 & Hl1).
  destruct (Hlabels _ _ Hj2) as (pc2' & Hpc2 & Hl2).
  rewrite H1 in Hpc1. injection Hpc1 as <-.
  rewrite H2 in Hpc2. injection Hpc2 as <-.
  assert (Hb1 : j1 < length (pget (queues s) p))
    by (apply nth_error_Some; congruence).
  assert (Hb2 : j2 < length (pget (queues s) p))
    by (apply nth_error_Some; congruence).
  rewrite Hl1, Hl2. intros Heq.
  assert (Hmod : (c - length (pget (queues s) p) + j1) mod m
                 = (c - length (pget (queues s) p) + j2) mod m) by lia.
  destruct (Nat.lt_trichotomy j1 j2) as [Hlt|[Hsame|Hgt]].
  - apply (mod_window m _ j1 j2) in Hmod; [assumption|lia|lia].
  - subst j2. congruence.
  - symmetry in Hmod. apply (mod_window m _ j2 j1) in Hmod; [assumption|lia|lia].
Qed.

Lemma live_pieces_have_distinct_labels_witness :
  legalRun (emptyState 3) sampleRun = true
  /\ bget (board (play (emptyState 3) sampleRun)) 3 = Some (mkPiece P1 2)
  /\ bget (board (play (emptyState 3) sampleRun)) 2 = Some (mkPiece P1 1)
  /\ label (mkPiece P1 2) <> label (mkPiece P1 1).
Proof.
  split; [reflexivity|]. split; [reflexivity|]. split; [reflexivity|].
  apply (live_pieces_have_distinct_labels 3 sampleRun 3 2
           (mkPiece P1 2) (mkPiece P1 1));
    [reflexivity|reflexivity|reflexivity|reflexivity|discriminate].
Defined.

(** ** What the host's handler does *)

(** The host's data handler, case by case.  It changes the hooks only by
    applying an attempt as player 2, and it does so exactly when, in the
    render of the handler, it is player 2's turn, nobody has won, the index
    is a number and the cell at that index reads as empty; a cell past the
    end of the board reads as empty too.  It sends at most one message, the
    snapshot of its render, and never sends over a missing or closed
    connection. *)
Theorem host_handler_accepts_exactly :
  forall (e store : GameState) (connRef : option Conn) (data : Message),
  let r := hostOnData e connRef data store in
  let accepted i :=
    data = MsgAttempt (IdxNum i) /\ turn e = P2 /\ win e = None
    /\ bget (board e) i = None in
  (forall i, accepted i -> fst r = applyMove e i P2 store)
  /\ ((forall i, ~ accepted i) -> fst r = store)
  /\ (forall i, length (board e) <= i -> turn e = P2 -> win e = None ->
                data = MsgAttempt (IdxNum i) -> accepted i)
  /\ (snd r = [] \/ snd r = [MsgState (Some e)])
  /\ (snd r <> [] ->
      (exists conn, connRef = Some conn /\ open conn = true)
      /\ (data = MsgSyncRequest \/ exists i, accepted i)).
Proof.
  intros e store connRef data r accepted. subst r accepted. cbv beta.
  assert (Hsend : broadcastState e connRef = []
                  \/ broadcastState e connRef = [MsgState (Some e)]).
  { unfold broadcastState. rewrite snapshot_is_render.
    destruct connRef as [conn|]; [destruct (open conn)|]; auto. }
  split; [|split; [|split; [|split]]].
  - intros i (-> & Ht & Hw & Hb). rewrite hostOnData_attempt, Ht, Hw, Hb.
    reflexivity.
  - intros Hnot. destruct data as [idx| | | |]; try reflexivity.
    rewrite hostOnData_attempt.
    destruct (turn e) eqn:Et; [reflexivity|].
    destruct (win e) eqn:Ew; [reflexivity|].
    destruct idx as [i|]; [|reflexivity].
    destruct (bget (board e) i) eqn:Eb; [reflexivity|].
    elim (Hnot i). auto.
  - intros i Hi Ht Hw ->. repeat split; try assumption.
    apply bget_past_end. assumption.
  - destruct data as [idx| | | |]; simpl; auto.
    destruct (turn e); simpl; auto. destruct (win e); simpl; auto.
    destruct idx as [i|]; auto. destruct (bget (board e) i); simpl; auto.
  - intros Hne. split.
    + apply (broadcast_needs_open e).
      destruct data as [idx| | | |]; simpl in Hne; try contradiction; auto.
      destruct (turn e); simpl in Hne; try contradiction.
      destruct (win e); simpl in Hne; try contradiction.
      destruct idx as [i|]; try contradiction.
      destruct (bget (board e) i); simpl in Hne; try contradiction. exact Hne.
    + destruct data as [idx| | | |]; simpl in Hne; try contradiction; auto.
      right. destruct (turn e) eqn:Et; simpl in Hne; try contradiction.
      destruct (win e) eqn:Ew; simpl in Hne; try contradiction.
      destruct idx as [i|]; try contradiction.
      destruct (bget (board e) i) eqn:Eb; simpl in Hne; try contradiction.
      exists i. auto.
Qed.

(** ** Eviction touches only the mover's pieces *)

(** A legal move never removes or changes a piece of the opponent: every
    cell that held a piece of the other player before the move holds the
    same piece after it. *)
Theorem move_spares_opponent_pieces :
  forall (m : nat) (ms : list Move) (i : nat) (p : Player) (j : nat)
         (pc : Piece),
  legalRun (emptyState m) (ms ++ [(i, p)]) = true ->
  bget (board (play (emptyState m) ms)) j = Some pc ->
  player pc = other p ->
  bget (board (play (emptyState m) (ms ++ [(i, p)]))) j = Some pc.
Proof.
  intros m ms i p j pc Hrun Hpc Hown.
  apply legalRun_last in Hrun. destruct Hrun as [Hrun Hlegal].
  simpl fst in Hlegal. rewrite play_app. simpl play.
  set (s := play (emptyState m) ms) in *.
  pose proof (run_keeps_consistent ms (emptyState m) Hrun
                                   (emptyState_consistent m)) as Hs.
  fold s in Hs.
  apply legalb_true in Hlegal. destruct Hlegal as (_ & _ & Hcell).
  unfold move. simpl fst. simpl snd.
  destruct (move_shape s i p) as (gone & kept & Hsplit & Hgone & _ & Hcells).
  rewrite Hcells.
  destruct (Nat.eqb_spec j i) as [->|_]; [congruence|].
  destruct (existsb (Nat.eqb j) gone) eqn:Eg; [|exact Hpc].
  exfalso. destruct Hgone as [->|[idx ->]]; [discriminate|].
  simpl in Eg. rewrite Bool.orb_false_r in Eg. apply Nat.eqb_eq in Eg.
  subst idx.
  apply (consistent_one_owner s j p Hs).
  - rewrite Hsplit. left. reflexivity.
  - apply (proj2 Hs). exists pc. auto.
Qed.

Lemma move_spares_opponent_pieces_witness :
  legalRun (emptyState 3) (firstn 6 sampleRun ++ [(2, P1)]) = true
  /\ bget (board (play (emptyState 3) (firstn 6 sampleRun))) 4
     = Some (mkPiece P2 2)
  /\ bget (board (play (emptyState 3) (firstn 6 sampleRun ++ [(2, P1)]))) 4
     = Some (mkPiece P2 2).
Proof.
  split; [reflexivity|]. split; [reflexivity|].
  apply (move_spares_opponent_pieces 3 (firstn 6 sampleRun) 2 P1 4
                                     (mkPiece P2 2)); reflexivity.
Defined.
